(** * JacareFinder: recorder, search orchestration and favorites

    A shallow embedding of the application:
    - [Recorder]: the component of [components/AudioRecorder.tsx] (status,
      elapsed-seconds counter, the one-second interval);
    - [Orchestrator]: [searchMusic] of [services/geminiService.ts] and
      [handleSearch] of the [App] component, in its version with favorites
      (validation, request construction, error handling, identifier
      normalization);
    - [Favorites]: [toggleFavorite] and the initial load of [App];
    - [Capture]: [formatTime], the [MediaRecorder] callbacks and the mount
      effect of the recorder;
    - [AppActions]: the remaining handlers of [App].

    React state is modelled as plain records and the handlers as functions on
    them; what the browser supplies (interval handles, the remote call,
    [JSON.parse], [crypto.randomUUID]) is threaded explicitly. *)

From Stdlib Require Import ZArith String Ascii.
From stdpp Require Import base tactics option list gmap strings pretty.

Local Open Scope string_scope.

(** ** The recorder component

    One mount of [AudioRecorder] is modelled, from [useState] to the last
    event before it is unmounted. *)

Module Recorder.

(** [enum RecorderStatus]. *)
Inductive RecorderStatus := IDLE | RECORDING | FINISHED.

#[global] Instance RecorderStatus_eq_dec : EqDecision RecorderStatus.
Proof. solve_decision. Defined.

(** The [MediaRecorder] object held in [mediaRecorderRef]; only whether it is
    capturing matters to the handlers. *)
Record MediaRecorder := { capturing : bool }.

(** The component's state ([status], [timer]), its refs
    ([mediaRecorderRef], [chunksRef], [timerIntervalRef]) and the part of the
    browser the handlers act on: the set of live interval handles, the next
    handle [window.setInterval] hands out (handles are positive integers) and
    the number of [getUserMedia] promises not yet settled. *)
Record Recorder := {
  status : RecorderStatus;
  timer : nat;
  mediaRecorder : option MediaRecorder;
  chunks : list string;
  timerInterval : option nat;
  intervals : gset nat;
  nextHandle : nat;
  pending : nat
}.

(** The component as mounted: [useState(IDLE)], [useState(0)], empty refs. *)
Definition initial : Recorder :=
  {| status := IDLE; timer := 0; mediaRecorder := None; chunks := [];
     timerInterval := None; intervals := ∅; nextHandle := 1; pending := 0 |}.

Definition withPending (p : nat) (r : Recorder) : Recorder :=
  {| status := status r; timer := timer r; mediaRecorder := mediaRecorder r;
     chunks := chunks r; timerInterval := timerInterval r;
     intervals := intervals r; nextHandle := nextHandle r; pending := p |}.

(** [if (timerIntervalRef.current)]: a ref is truthy when it holds a nonzero
    handle. *)
Definition truthy_handle (h : option nat) : bool :=
  match h with
  | Some (S _) => true
  | _ => false
  end.

(** [clearInterval(timerIntervalRef.current)]. *)
Definition clearInterval (h : option nat) (live : gset nat) : gset nat :=
  match h with
  | Some n => live ∖ {[n]}
  | None => live
  end.

(** [startRecording] up to its [await]: the call to [getUserMedia].  The
    function does not read [status]. *)
Definition requestMicrophone (r : Recorder) : Recorder :=
  withPending (S (pending r)) r.

(** [startRecording] after the [await], when access is granted: the refs are
    set, the recorder is started, [setStatus(RECORDING)], [setTimer(0)] and a
    new interval is installed in [timerIntervalRef]. *)
Definition startGranted (r : Recorder) : Recorder :=
  let h := nextHandle r in
  {| status := RECORDING;
     timer := 0;
     mediaRecorder := Some {| capturing := true |};
     chunks := [];
     timerInterval := Some h;
     intervals := {[h]} ∪ intervals r;
     nextHandle := S h;
     pending := pending r |}.

(** One pending [getUserMedia] promise settles: on fulfilment
    [startRecording] resumes, on rejection its [catch] branch alerts and
    nothing is changed. *)
Definition settle (granted : bool) (r : Recorder) : Recorder :=
  match pending r with
  | 0 => r
  | S p => if granted then startGranted (withPending p r) else withPending p r
  end.

(** [startRecording] when the promise settles before anything else
    happens. *)
Definition startRecording (granted : bool) (r : Recorder) : Recorder :=
  settle granted (requestMicrophone r).

(** [stopRecording]: guarded by the ref and by [status === RECORDING]. *)
Definition stopRecording (r : Recorder) : Recorder :=
  match mediaRecorder r with
  | Some _ =>
      if decide (status r = RECORDING) then
        {| status := FINISHED;
           timer := timer r;
           mediaRecorder := Some {| capturing := false |};
           chunks := chunks r;
           timerInterval := timerInterval r;
           intervals :=
             if truthy_handle (timerInterval r)
             then clearInterval (timerInterval r) (intervals r)
             else intervals r;
           nextHandle := nextHandle r;
           pending := pending r |}
      else r
  | None => r
  end.

(** [clearRecording]: no guard, no [clearInterval]; [onClear()] informs the
    parent and leaves the recorder alone. *)
Definition clearRecording (r : Recorder) : Recorder :=
  {| status := IDLE;
     timer := 0;
     mediaRecorder := mediaRecorder r;
     chunks := [];
     timerInterval := timerInterval r;
     intervals := intervals r;
     nextHandle := nextHandle r;
     pending := pending r |}.

(** The interval callback [setTimer(prev => prev + 1)], fired by the browser
    for a live handle only. *)
Definition tick (h : nat) (r : Recorder) : Recorder :=
  if decide (h ∈ intervals r) then
    {| status := status r;
       timer := S (timer r);
       mediaRecorder := mediaRecorder r;
       chunks := chunks r;
       timerInterval := timerInterval r;
       intervals := intervals r;
       nextHandle := nextHandle r;
       pending := pending r |}
  else r.

(** The three operations, as the buttons trigger them. *)
Inductive Op := Start | Stop | Reset.

#[global] Instance Op_eq_dec : EqDecision Op.
Proof. solve_decision. Defined.

Definition handler (op : Op) : Recorder -> Recorder :=
  match op with
  | Start => requestMicrophone
  | Stop => stopRecording
  | Reset => clearRecording
  end.

(** The JSX: the start button is rendered only when [status === IDLE], the
    stop button only when [status === RECORDING], the discard button only
    when [status === FINISHED]. *)
Definition rendered (s : RecorderStatus) (op : Op) : bool :=
  match s, op with
  | IDLE, Start => true
  | RECORDING, Stop => true
  | FINISHED, Reset => true
  | _, _ => false
  end.

(** An operation requested through the interface: the handler runs when its
    control is on screen; a control that is not rendered cannot be pressed,
    which leaves the component as it is. *)
Definition press (op : Op) (r : Recorder) : Recorder :=
  if rendered (status r) op then handler op r else r.

(** What can happen to a mounted recorder: a control is pressed, a
    permission request is answered, an interval fires. *)
Inductive Event := Press (op : Op) | Settle (granted : bool) | Tick (h : nat).

Definition step (e : Event) (r : Recorder) : Recorder :=
  match e with
  | Press op => press op r
  | Settle granted => settle granted r
  | Tick h => tick h r
  end.

Definition run (es : list Event) (r : Recorder) : Recorder :=
  foldl (fun acc e => step e acc) r es.

(** States of a mounted recorder driven through its interface. *)
Inductive reachable : Recorder -> Prop :=
  | reachable_initial : reachable initial
  | reachable_step e r : reachable r -> reachable (step e r).

(** The same, when start is never pressed while a permission request is
    still pending. *)
Inductive orderly : Recorder -> Prop :=
  | orderly_initial : orderly initial
  | orderly_step e r :
      orderly r -> (e = Press Start -> pending r = 0) -> orderly (step e r).

(** Holds in every reachable state: while recording, the refs hold a
    recorder and a live interval. *)
Definition ref_inv (r : Recorder) : Prop :=
  0 < nextHandle r /\
  (status r = RECORDING ->
   mediaRecorder r <> None /\
   exists h, timerInterval r = Some (S h) /\ S h ∈ intervals r).

(** Holds in every orderly state: a pending request keeps the recorder
    idle, the one live interval while recording is the one in the ref, and
    no interval is live otherwise. *)
Definition timer_inv (r : Recorder) : Prop :=
  0 < nextHandle r /\
  (pending r = 0 \/ (pending r = 1 /\ status r = IDLE)) /\
  match status r with
  | RECORDING =>
      exists h, timerInterval r = Some (S h) /\ intervals r = {[S h]}
                /\ mediaRecorder r <> None
  | _ => intervals r = ∅
  end.

(** The recorder after a granted start on a freshly mounted component. *)
Definition recording1 : Recorder := run [Press Start; Settle true] initial.

(** Start pressed twice before either permission request is answered, both
    granted, then stop. *)
Definition overlappingStarts : list Event :=
  [Press Start; Press Start; Settle true; Settle true; Press Stop].

(** Start pressed twice before either permission request is answered; the
    first request is granted and two seconds are counted while the second
    request is still pending. *)
Definition secondRequestPending : list Event :=
  [Press Start; Press Start; Settle true; Tick 1; Tick 1].

End Recorder.

(** ** Orchestrator: [searchMusic] and [handleSearch] *)

Module Orchestrator.

(** [interface Song].  The remote answer is cast to [Song[]], not validated,
    so at run time [id] may be missing: [None] stands for an absent
    identifier. *)
Inductive MatchType := Texto | Melodia | Contexto.

Record Song := {
  id : option string;
  titulo : string;
  artista : string;
  matchType : MatchType;
  confidence : Z;
  description : option string
}.

#[global] Instance MatchType_eq_dec : EqDecision MatchType.
Proof. solve_decision. Defined.

#[global] Instance Song_eq_dec : EqDecision Song.
Proof. solve_decision. Defined.

(** [interface SearchState]. *)
Record SearchState := {
  isLoading : bool;
  error : option string;
  results : list Song
}.

(** The [audioData] state of [App]. *)
Record AudioData := { base64 : string; mimeType : string }.

Inductive Tab := SearchTab | FavoritesTab.

(** The part of [App]'s state [handleSearch] reads and writes. *)
Record App := {
  searchText : string;
  audioData : option AudioData;
  activeTab : Tab;
  state : SearchState
}.

(** The elements of [parts]: [{ text }] and [{ inlineData: { mimeType, data } }]. *)
Record InlineData := { inlineMimeType : string; data : string }.

Inductive Part := TextPart (text : string) | InlinePart (inlineData : InlineData).

(** The request handed to [ai.models.generateContent]: the model name and
    the parts; the [config] object is the same in every call. *)
Record Request := { model : string; parts : list Part }.

(** What the remote call does: the promise rejects, or it resolves to a
    response whose [text] may be undefined. *)
Inductive Reply := Rejected (message : string) | Replied (text : option string).

(** A value produced by [JSON.parse], seen through the cast to [Song[]]:
    [null]; another value that is not an array (an object, a number, a
    text, a boolean); an array of records; or an array whose elements are
    records up to a first [null] element (what follows that element is
    never read by [map]).  Arrays with other elements that are not objects
    are not represented. *)
Inductive Parsed :=
  | ParsedNull
  | NotArray
  | Records (l : list Song)
  | RecordsThenNull (l : list Song).

(** The world outside the component: the requests issued to the remote
    service so far and the number of identifiers drawn from
    [crypto.randomUUID]. *)
Record World := { requests : list Request; draws : nat }.

(** Completion of a JavaScript computation. *)
Inductive Outcome (A : Type) := Returned (a : A) | Thrown (message : string).
Arguments Returned {A} a.
Arguments Thrown {A} message.

(** Computations that may throw and that act on the world. *)
Definition Js (A : Type) : Type := World -> Outcome A * World.

#[global] Instance Js_ret : MRet Js := fun A a w => (Returned a, w).

Definition throw {A} (message : string) : Js A := fun w => (Thrown message, w).

#[global] Instance Js_bind : MBind Js := fun A B k m w =>
  match m w with
  | (Returned a, w') => k a w'
  | (Thrown e, w') => (Thrown e, w')
  end.

(** [try { m } catch (e) { h e }]. *)
Definition try_catch {A} (m : Js A) (h : string -> Js A) : Js A :=
  fun w =>
    match m w with
    | (Returned a, w') => (Returned a, w')
    | (Thrown e, w') => h e w'
    end.

Fixpoint mapM {A B} (f : A -> Js B) (l : list A) : Js (list B) :=
  match l with
  | [] => mret []
  | a :: l' => b ← f a; bs ← mapM f l'; mret (b :: bs)
  end.

(** JavaScript truthiness of a string and of a possibly missing string. *)
Definition truthy (s : string) : bool :=
  match s with
  | EmptyString => false
  | String _ _ => true
  end.

Definition truthy_opt (s : option string) : bool :=
  match s with
  | Some s => truthy s
  | None => false
  end.

(** [x || y] on strings. *)
Definition or_else (x y : string) : string := if truthy x then x else y.

(** White space as [String.prototype.trim] sees it, among the code units
    below 256: TAB, LF, VT, FF, CR, SP and NBSP. *)
Definition is_white (c : ascii) : bool :=
  match nat_of_ascii c with
  | 9 | 10 | 11 | 12 | 13 | 32 | 160 => true
  | _ => false
  end.

Fixpoint trimStart (s : string) : string :=
  match s with
  | EmptyString => EmptyString
  | String c s' => if is_white c then trimStart s' else s
  end.

Definition trimEnd (s : string) : string :=
  String.rev (trimStart (String.rev s)).

Definition trim (s : string) : string := trimEnd (trimStart s).

Definition dquote : string := String "034"%char EmptyString.
Definition newline : string := String "010"%char EmptyString.

(** The three prompts of [searchMusic]. *)
Definition audioTextPrompt (text : string) : string :=
  "Identify the song based on the audio melody provided AND the following user description: "
  ++ dquote ++ text ++ dquote ++ ". " ++ newline
  ++ "    The audio is the primary source for melody matching, but use the text for context.".

Definition audioOnlyPrompt : string :=
  "Identify this song based on the hummed or recorded melody. Return the most likely matches.".

Definition textOnlyPrompt (text : string) : string :=
  "Find songs matching this description: " ++ dquote ++ text ++ dquote
  ++ ". If it mentions a movie scene, mood, or vague lyrics, use your knowledge to find the specific track.".

Definition promptText (text : string) (audioBase64 : option string) : string :=
  if truthy_opt audioBase64 && truthy text then audioTextPrompt text
  else if truthy_opt audioBase64 then audioOnlyPrompt
  else textOnlyPrompt text.

(** The default parameter [mimeType: string = 'audio/webm']. *)
Definition defaultMimeType : string := "audio/webm".

(** [parts]: the prompt, then the inline audio when there is some. *)
Definition requestParts (text : string) (audioBase64 : option string)
    (mimeTypeArg : option string) : list Part :=
  let mimeType := default defaultMimeType mimeTypeArg in
  TextPart (promptText text audioBase64) ::
  match audioBase64 with
  | Some a =>
      if truthy a
      then [InlinePart {| inlineMimeType := mimeType; data := a |}]
      else []
  | None => []
  end.

Definition modelName : string := "gemini-2.5-flash".

Definition buildRequest (text : string) (audioBase64 : option string)
    (mimeTypeArg : option string) : Request :=
  {| model := modelName; parts := requestParts text audioBase64 mimeTypeArg |}.

Definition searchFailedMessage : string :=
  "Failed to search for music. Please try again.".

Definition validationMessage : string :=
  "Please describe a song or record audio first.".

Definition unexpectedMessage : string := "An unexpected error occurred.".

(** The messages of the [TypeError]s of the normalization, in V8's wording:
    [rawResults.map] on a value that is not [null] and not an array,
    [rawResults.map] on [null], and [r.id] on a [null] element. *)
Definition notAFunctionMessage : string := "rawResults.map is not a function".

Definition nullMapMessage : string :=
  "Cannot read properties of null (reading 'map')".

Definition nullIdMessage : string :=
  "Cannot read properties of null (reading 'id')".

Section Collaborators.

(** The collaborators: the remote service, [JSON.parse] ([None] is a
    [SyntaxError]) and the sequence of values [crypto.randomUUID] returns. *)
Variable generateContent : Request -> Reply.
Variable JSON_parse : string -> option Parsed.
Variable randomUUID : nat -> string.

(** [await ai.models.generateContent(...)]: one request is issued. *)
Definition callRemote (req : Request) : Js (option string) :=
  fun w =>
    let w' := {| requests := requests w ++ [req]; draws := draws w |} in
    match generateContent req with
    | Rejected e => (Thrown e, w')
    | Replied t => (Returned t, w')
    end.

Definition parseJson (t : string) : Js Parsed :=
  match JSON_parse t with
  | Some v => mret v
  | None => throw "SyntaxError"
  end.

(** [crypto.randomUUID()]. *)
Definition drawUUID : Js string :=
  fun w =>
    (Returned (randomUUID (draws w)),
     {| requests := requests w; draws := S (draws w) |}).

(** [searchMusic]. *)
Definition searchMusic (text : string) (audioBase64 : option string)
    (mimeTypeArg : option string) : Js Parsed :=
  try_catch
    (textResponse ← callRemote (buildRequest text audioBase64 mimeTypeArg);
     match textResponse with
     | Some t => if truthy t then parseJson t else mret (Records [])
     | None => mret (Records [])
     end)
    (fun _ => throw searchFailedMessage).

(** [r.id && r.id.length > 5]. *)
Definition keepsId (r : Song) : bool :=
  match id r with
  | Some s => truthy s && bool_decide (5 < String.length s)
  | None => false
  end.

(** [{ ...r, id: u }]. *)
Definition withId (u : string) (r : Song) : Song :=
  {| id := Some u; titulo := titulo r; artista := artista r;
     matchType := matchType r; confidence := confidence r;
     description := description r |}.

(** [{ ...r, id: r.id && r.id.length > 5 ? r.id : crypto.randomUUID() }]. *)
Definition normalizeId (r : Song) : Js Song :=
  if keepsId r then mret r
  else u ← drawUUID; mret (withId u r).

(** [rawResults.map(...)]. *)
Definition normalizeIds (rawResults : Parsed) : Js (list Song) :=
  match rawResults with
  | ParsedNull => throw nullMapMessage
  | NotArray => throw notAFunctionMessage
  | Records l => mapM normalizeId l
  | RecordsThenNull l => _ ← mapM normalizeId l; throw nullIdMessage
  end.

(** [!searchText.trim() && !audioData]. *)
Definition nothingToSearch (app : App) : bool :=
  negb (truthy (trim (searchText app))) && negb (bool_decide (is_Some (audioData app))).

(** [audioData?.base64 || null]. *)
Definition audioBase64Arg (a : option AudioData) : option string :=
  match a with
  | Some d => if truthy (base64 d) then Some (base64 d) else None
  | None => None
  end.

Definition withState (app : App) (tab : Tab) (st : SearchState) : App :=
  {| searchText := searchText app; audioData := audioData app;
     activeTab := tab; state := st |}.

(** [handleSearch]: the application state once the handler has settled.
    The state set before the remote call ([isLoading: true], no error, no
    results) is replaced whole by the terminal [setState]. *)
Definition handleSearch (app : App) (w : World) : App * World :=
  if nothingToSearch app then
    (withState app (activeTab app)
       {| isLoading := isLoading (state app);
          error := Some validationMessage;
          results := results (state app) |}, w)
  else
    match
      (rawResults ← searchMusic (searchText app)
                      (audioBase64Arg (audioData app))
                      (mimeType <$> audioData app);
       normalizeIds rawResults) w
    with
    | (Returned rs, w') =>
        (withState app SearchTab
           {| isLoading := false; error := None; results := rs |}, w')
    | (Thrown e, w') =>
        (withState app SearchTab
           {| isLoading := false;
              error := Some (or_else e unexpectedMessage);
              results := [] |}, w')
    end.

(** The number of identifiers a batch makes [handleSearch] draw. *)
Definition drawsNeeded (l : list Song) : nat :=
  length (filter (fun r => keepsId r = false) l).

(** The batch after normalization when the next draw is the [n]-th. *)
Fixpoint normalizeFrom (n : nat) (l : list Song) : list Song :=
  match l with
  | [] => []
  | r :: l' =>
      if keepsId r then r :: normalizeFrom n l'
      else withId (randomUUID n) r :: normalizeFrom (S n) l'
  end.

End Collaborators.

(** What normalization does to the record at a given position. *)
Definition normalized (uuid : nat -> string) (lo hi : nat) (r r' : Song) : Prop :=
  (keepsId r = true /\ r' = r) \/
  (keepsId r = false /\ exists k, lo <= k < hi /\ r' = withId (uuid k) r).

(** The generator is fresh on the draws [lo .. hi - 1] for a batch: the
    values drawn differ from one another and from the identifiers the batch
    keeps. *)
Definition freshOn (uuid : nat -> string) (lo hi : nat) (l : list Song) : Prop :=
  (forall k1 k2, lo <= k1 < k2 -> k2 < hi -> uuid k1 <> uuid k2) /\
  (forall k r, lo <= k < hi -> r ∈ l -> keepsId r = true ->
               id r <> Some (uuid k)).

(** An identifier that is present and longer than five code units. *)
Definition longId (r : Song) : Prop :=
  exists s, id r = Some s /\ 5 < String.length s.

(** A text made of white space only (the empty text included). *)
Fixpoint whitespaceOnly (s : string) : bool :=
  match s with
  | EmptyString => true
  | String c s' => is_white c && whitespaceOnly s'
  end.

(** The state [App] starts with, and a successful search with no match
    ends in. *)
Definition idleState : SearchState :=
  {| isLoading := false; error := None; results := [] |}.

(** The world after one more request. *)
Definition logged (req : Request) (w : World) : World :=
  {| requests := requests w ++ [req]; draws := draws w |}.

(** The request [handleSearch] issues when validation passes. *)
Definition requestOf (app : App) : Request :=
  buildRequest (searchText app) (audioBase64Arg (audioData app))
    (mimeType <$> audioData app).

(** The terminal state set by the [catch] branch of [handleSearch]. *)
Definition failed (message : string) : SearchState :=
  {| isLoading := false; error := Some message; results := [] |}.

Definition parseNothing : string -> option Parsed := fun _ => None.
Definition constantUUID : nat -> string := fun _ => "00000000-0000-4000-8000-000000000000".

Definition textQuery : App :=
  {| searchText := "sad piano song from Inception"; audioData := None;
     activeTab := SearchTab; state := idleState |}.

Definition freshWorld : World := {| requests := []; draws := 0 |}.

(** An identifier source whose first draws differ, and a batch with a short,
    a missing and a long identifier. *)
Definition sampleUUID (n : nat) : string :=
  match n with
  | 0 => "7d444840-9dc0-41d1-b245-5ffdce74fad2"
  | 1 => "e58ed763-928c-4155-bee9-fdbaaadc15f3"
  | _ => "0b1f0a6e-3c7b-4c55-9d0e-2f6a8f5d7c11"
  end.

Definition sampleBatch : list Song :=
  [ {| id := Some "1"; titulo := "Time"; artista := "Hans Zimmer";
       matchType := Contexto; confidence := 92; description := None |};
    {| id := None; titulo := "Mad World"; artista := "Gary Jules";
       matchType := Texto; confidence := 40; description := Some "cover" |};
    {| id := Some "song-000003"; titulo := "Clubbed to Death";
       artista := "Rob Dougan"; matchType := Melodia; confidence := 0;
       description := None |} ].








Definition rejectingRemote : Request -> Reply := fun _ => Rejected "Failed to fetch".

Definition aSong : Song :=
  {| id := Some "inception-time"; titulo := "Time"; artista := "Hans Zimmer";
     matchType := Contexto; confidence := 92; description := None |}.

(** An application showing earlier results, with a blank text and no audio. *)
Definition blankQuery : App :=
  {| searchText := "  "; audioData := None; activeTab := FavoritesTab;
     state := {| isLoading := true; error := None; results := [aSong] |} |}.

End Orchestrator.

(** ** Favorites: [toggleFavorite] and the load at startup *)

Module Favorites.

Import Orchestrator.

(** The updater passed to [setFavorites] by [toggleFavorite]. *)
Definition toggleFavorite (song : Song) (prev : list Song) : list Song :=
  let isFav := existsb (fun f => bool_decide (id f = id song)) prev in
  if isFav then filter (fun f => id f <> id song) prev
  else prev ++ [song].

(** A song with the identifier of [song] is among the favorites. *)
Definition hasId (song : Song) (S : list Song) : Prop :=
  exists f, f ∈ S /\ id f = id song.

(** The favorites with the songs of [song]'s identifier removed. *)
Definition without (song : Song) (S : list Song) : list Song :=
  filter (fun f => id f <> id song) S.

(** Two favorites. *)
Definition songA : Song :=
  {| id := Some "song-a-0001"; titulo := "Time"; artista := "Hans Zimmer";
     matchType := Contexto; confidence := 92; description := None |}.

Definition songB : Song :=
  {| id := Some "song-b-0002"; titulo := "Mad World"; artista := "Gary Jules";
     matchType := Texto; confidence := 40; description := None |}.

(** [localStorage.getItem]: it may throw (storage disabled), or it yields the
    stored text, [None] when the key is absent. *)
Inductive GetItem := GetItemThrows (message : string) | Stored (saved : option string).

Section Load.

Variable JSON_parse : string -> option Parsed.

(** The body of the [try] block of the initializer of [favorites]. *)
Definition loadBody (item : GetItem) : Outcome Parsed :=
  match item with
  | GetItemThrows e => Thrown e
  | Stored None => Returned (Records [])
  | Stored (Some saved) =>
      if truthy saved then
        match JSON_parse saved with
        | Some v => Returned v
        | None => Thrown "SyntaxError"
        end
      else Returned (Records [])
  end.

(** The initializer: the [catch] branch logs and returns [[]]. *)
Definition loadFavorites (item : GetItem) : Outcome Parsed :=
  match loadBody item with
  | Returned v => Returned v
  | Thrown _ => Returned (Records [])
  end.

End Load.

(** The message of the [TypeError] of [favorites.length] on [null] (V8's
    wording). *)
Definition nullLengthMessage : string :=
  "Cannot read properties of null (reading 'length')".

(** The first render of [App] reads [favorites.length] for the badge of the
    favorites tab; on [null] the read throws, on any other value it does
    not. *)
Definition readLength (favorites : Parsed) : Outcome unit :=
  match favorites with
  | ParsedNull => Thrown nullLengthMessage
  | _ => Returned tt
  end.

Section Startup.

Variable JSON_parse : string -> option Parsed.

(** Mounting [App]: the initializer of [favorites], then the first render.
    Nothing catches what the render throws. *)
Definition startup (item : GetItem) : Outcome Parsed :=
  match loadFavorites JSON_parse item with
  | Returned favorites =>
      match readLength favorites with
      | Returned _ => Returned favorites
      | Thrown e => Thrown e
      end
  | Thrown e => Thrown e
  end.

End Startup.

(** A stand-in for [JSON.parse] on the two texts used below: [null] parses
    to [null], [[]] to the empty array; anything else is treated as a
    syntax error. *)
Definition parseSample (saved : string) : option Parsed :=
  if decide (saved = "null") then Some ParsedNull
  else if decide (saved = "[]") then Some (Records [])
  else None.

End Favorites.

(** ** The recorder's display and capture callbacks *)

Module Capture.

Import Recorder.

(** [String.prototype.padStart] with a one-character filler. *)
Fixpoint filler (n : nat) (c : ascii) : string :=
  match n with
  | 0 => EmptyString
  | S n' => String c (filler n' c)
  end.

Definition padStart (target : nat) (c : ascii) (s : string) : string :=
  filler (target - String.length s) c ++ s.

(** [formatTime]: minutes, a colon, and the seconds on two digits;
    [toString] of a natural number is its decimal writing. *)
Definition formatTime (seconds : nat) : string :=
  let mins := seconds / 60 in
  let secs := seconds mod 60 in
  pretty mins ++ ":" ++ padStart 2 "0" (pretty secs).

(** The seconds field, for each value of [seconds mod 60]. *)
Definition secondsFields : list string :=
  (fun x => padStart 2 "0" (pretty x)) <$> seq 0 60.

(** [mediaRecorder.ondataavailable]: a chunk is kept when it is not empty.
    A blob is modelled by its bytes. *)
Definition ondataavailable (data : string) (chunks : list string) : list string :=
  if bool_decide (0 < String.length data) then chunks ++ [data] else chunks.

(** The chunks after a sequence of [dataavailable] events. *)
Definition collect (events : list string) (chunks : list string) : list string :=
  foldl (fun acc data => ondataavailable data acc) chunks events.

(** The bytes of [new Blob(parts)]: the parts one after the other. *)
Definition blobOf (parts : list string) : string :=
  foldr String.append EmptyString parts.

(** The [type] given to the blob in [onstop]. *)
Definition blobType : string := "audio/webm".

(** [String.prototype.split] with a one-character separator. *)
Fixpoint split (sep : ascii) (s : string) : list string :=
  match s with
  | EmptyString => [EmptyString]
  | String c s' =>
      if decide (c = sep) then EmptyString :: split sep s'
      else
        match split sep s' with
        | x :: xs => String c x :: xs
        | [] => [String c EmptyString]
        end
  end.

Section Encoder.

(** The base64 encoding applied by [FileReader.readAsDataURL]. *)
Variable base64 : string -> string.

(** [reader.result] after [readAsDataURL(blob)]: the data URL of the blob. *)
Definition readAsDataURL (type bytes : string) : string :=
  "data:" ++ type ++ ";base64," ++ base64 bytes.

(** [mediaRecorder.onstop], as far as the parent sees it: the arguments of
    [onRecordingComplete], the first being [split(',')[1]] of the data URL
    ([None] stands for [undefined]). *)
Definition onstop (chunks : list string) : option string * string :=
  (split "," (readAsDataURL blobType (blobOf chunks)) !! 1, blobType).

End Encoder.

(** A text without the given character. *)
Fixpoint lacks (c : ascii) (s : string) : bool :=
  match s with
  | EmptyString => true
  | String a s' => negb (bool_decide (a = c)) && lacks c s'
  end.

(** The cleanup of the mount effect, run when the component is unmounted:
    [if (timerIntervalRef.current) clearInterval(timerIntervalRef.current)].
    The result is the set of intervals still live. *)
Definition unmountCleanup (r : Recorder) : gset nat :=
  if truthy_handle (timerInterval r)
  then clearInterval (timerInterval r) (intervals r)
  else intervals r.

(** A stand-in for the encoder that leaves the bytes as they are. *)
Definition plainEncoding : string -> string := fun bytes => bytes.

End Capture.

(** ** The other handlers of [App] *)

Module AppActions.

Import Orchestrator Favorites.

(** [handleAudioComplete]: the callback given to the recorder as
    [onRecordingComplete]. *)
Definition handleAudioComplete (base64 mimeType : string) (app : App) : App :=
  {| searchText := searchText app;
     audioData := Some {| base64 := base64; mimeType := mimeType |};
     activeTab := activeTab app; state := state app |}.

(** [handleClearAudio]: the callback given to the recorder as [onClear]. *)
Definition handleClearAudio (app : App) : App :=
  {| searchText := searchText app; audioData := None;
     activeTab := activeTab app; state := state app |}.

(** [clearAll]. *)
Definition clearAll (app : App) : App :=
  {| searchText := EmptyString; audioData := None;
     activeTab := activeTab app; state := idleState |}.

(** [hasContent], which decides whether the clear button is shown. *)
Definition hasContent (app : App) : bool :=
  bool_decide (0 < String.length (searchText app))
  || bool_decide (audioData app <> None)
  || bool_decide (0 < length (results (state app))).

(** [isFav] of [renderSongList]: [favorites.some(f => f.id === song.id)]. *)
Definition isFav (favorites : list Song) (song : Song) : bool :=
  existsb (fun f => bool_decide (id f = id song)) favorites.

(** The long identifiers of a batch are pairwise different. *)
Definition keptDistinct (raw : list Song) : Prop :=
  forall i j ri rj, raw !! i = Some ri -> raw !! j = Some rj ->
    keepsId ri = true -> keepsId rj = true -> id ri = id rj -> i = j.

End AppActions.

(** * Properties *)

(** ** Recorder *)

Section RecorderFacts.

Import Recorder.

Lemma reachable_run es : reachable (run es initial).
Proof.
  unfold run. induction es as [|e es IH] using rev_ind; cbn.
  - constructor.
  - rewrite foldl_app. cbn. by constructor.
Qed.

Lemma orderly_reachable r : orderly r -> reachable r.
Proof. induction 1; by constructor. Qed.

(** *** Invariants *)

Lemma ref_inv_startGranted r : 0 < nextHandle r -> ref_inv (startGranted r).
Proof.
  intros Hpos. split; cbn; [lia|]. intros _. split; [done|].
  destruct (nextHandle r) as [|n]; [lia|].
  exists n. split; [done|]. apply elem_of_union_l. by apply elem_of_singleton.
Qed.

Lemma ref_inv_step e r : ref_inv r -> ref_inv (step e r).
Proof.
  intros H. pose proof H as [Hpos Hinv]. destruct e as [op|granted|h]; cbn.
  - unfold press. destruct (rendered (status r) op); [|done].
    destruct op; cbn.
    + split; cbn; done.
    + unfold stopRecording. destruct (mediaRecorder r); [|done].
      destruct (decide (status r = RECORDING)); [|done]. split; cbn; done.
    + split; cbn; done.
  - unfold settle. destruct (pending r) as [|p]; [done|].
    destruct granted; [by apply ref_inv_startGranted|]. split; cbn; done.
  - unfold tick. destruct (decide (h ∈ intervals r)); [|done].
    split; cbn; done.
Qed.

Lemma reachable_ref_inv r : reachable r -> ref_inv r.
Proof.
  induction 1 as [|e r _ IH].
  - split; [cbn; lia | done].
  - by apply ref_inv_step.
Qed.

Lemma timer_inv_step e r :
  timer_inv r -> (e = Press Start -> pending r = 0) -> timer_inv (step e r).
Proof.
  intros H Hord. pose proof H as (Hpos & Hpend & Hinv).
  destruct e as [op|granted|h]; cbn.
  - unfold press. destruct (rendered (status r) op) eqn:Hshown; [|done].
    destruct (status r) eqn:Hst, op; try discriminate; cbn.
    + (* start pressed in Idle: a request is now pending *)
      split; cbn; [done|]. rewrite Hst. split; [|done].
      right. by rewrite Hord.
    + (* stop pressed in Recording *)
      destruct Hinv as (h & Href & Hlive & Hmr).
      destruct Hpend as [Hp|[_ ?]]; [|done].
      unfold stopRecording. destruct (mediaRecorder r); [|done].
      rewrite Hst, decide_True by done.
      split; cbn; [done|]. split; [by left|].
      rewrite Href. cbn. rewrite Hlive. apply difference_diag_L.
    + (* discard pressed in Finished *)
      destruct Hpend as [Hp|[_ ?]]; [|done].
      split; cbn; [done|]. split; [by left|done].
  - unfold settle. destruct (pending r) as [|p] eqn:Hp; [done|].
    destruct Hpend as [?|[[= ->] Hst]]; [done|].
    rewrite Hst in Hinv. destruct granted.
    + (* granted while Idle *)
      split; cbn; [lia|]. split; [by left|].
      destruct (nextHandle r) as [|n]; [lia|].
      exists n. by rewrite Hinv, union_empty_r_L.
    + split; cbn; [done|]. rewrite Hst. split; [by left|done].
  - unfold tick. destruct (decide (h ∈ intervals r)); [|done].
    split; cbn; [done|]. split; done.
Qed.

Lemma orderly_timer_inv r : orderly r -> timer_inv r.
Proof.
  induction 1 as [|e r _ IH Hord].
  - split; [cbn; lia|]. split; [by left|done].
  - by apply timer_inv_step.
Qed.

Lemma orderly_recording1 : orderly recording1.
Proof.
  apply (orderly_step (Settle true)); [|done].
  apply (orderly_step (Press Start)); [|done].
  apply orderly_initial.
Qed.

(** *** The transition table *)

Lemma settle_requestMicrophone r : settle false (requestMicrophone r) = r.
Proof. by destruct r. Qed.

(** The presses and their effect: pressing start in Idle issues a
    permission request, whose grant leads to Recording and whose denial
    changes nothing; pressing stop in Recording leads to Finished; pressing
    discard in Finished leads to Idle; a control that is not rendered has no
    effect.  Of the handlers, [stopRecording] carries the status guard
    itself. *)
Lemma press_step_table (r : Recorder) (op : Op) :
  reachable r ->
  match status r, op with
  | IDLE, Start =>
      press op r = requestMicrophone r /\
      status (settle true (press op r)) = RECORDING /\
      settle false (press op r) = r
  | RECORDING, Stop => status (press op r) = FINISHED
  | FINISHED, Reset => status (press op r) = IDLE
  | _, _ => press op r = r
  end /\
  (status r <> RECORDING -> stopRecording r = r).
Proof.
  intros Hr. apply reachable_ref_inv in Hr as [_ Hinv]. split.
  - unfold press.
    destruct (status r) eqn:Hst, op; cbn; try reflexivity.
    + split_and!; [done|done|apply settle_requestMicrophone].
    + destruct Hinv as [Hmr _]; [done|].
      unfold stopRecording. destruct (mediaRecorder r); [|done].
      by rewrite Hst, decide_True.
  - intros Hst. unfold stopRecording.
    destruct (mediaRecorder r); [|done]. by rewrite decide_False.
Qed.

(** C1 (defect in the code): start takes effect outside Idle.  After two
    presses on start made before the first permission request is answered,
    the first grant leads to Recording and seconds are counted; the second
    grant then runs the rest of [startRecording] while the recorder is
    Recording: the counter goes back to 0 and a second interval is
    installed beside the first, so the state is not left unchanged. *)
Theorem C1_second_start_while_recording :
  let r := run secondRequestPending initial in
  reachable r /\
  status r = RECORDING /\ timer r = 2 /\ intervals r = {[1]} /\
  status (step (Settle true) r) = RECORDING /\
  timer (step (Settle true) r) = 0 /\
  intervals (step (Settle true) r) = {[2]} ∪ {[1]} /\
  step (Settle true) r <> r.
Proof.
  split; [apply reachable_run|].
  split_and!; try (vm_compute; reflexivity).
  intros Heq. apply (f_equal timer) in Heq. vm_compute in Heq. discriminate.
Qed.

(** *** The interval *)

(** When start is not pressed again while a permission request is pending,
    the interval is cancelled by stop at the Recording to Finished
    transition and no interval is live in any state other than Recording;
    [clearRecording] itself cancels nothing. *)
Lemma orderly_interval_cancelled (r : Recorder) :
  orderly r ->
  (status r = RECORDING ->
     status (press Stop r) = FINISHED /\ intervals (press Stop r) = ∅) /\
  (status r <> RECORDING -> intervals r = ∅) /\
  (forall e, (e = Press Start -> pending r = 0) ->
     status (step e r) <> RECORDING -> intervals (step e r) = ∅) /\
  intervals (clearRecording r) = intervals r.
Proof.
  intros Hr.
  assert (Hnot : forall r', orderly r' -> status r' <> RECORDING ->
                            intervals r' = ∅).
  { intros r' Hr' Hst. apply orderly_timer_inv in Hr' as (_ & _ & Hinv).
    by destruct (status r'). }
  split_and!; [| by apply Hnot | | reflexivity].
  - intros Hst.
    assert (Hfin : status (press Stop r) = FINISHED).
    { destruct (orderly_timer_inv r Hr) as (_ & _ & Hinv).
      rewrite Hst in Hinv. destruct Hinv as (h & _ & _ & Hmr).
      unfold press. rewrite Hst. cbn. unfold stopRecording.
      destruct (mediaRecorder r); [|done]. by rewrite Hst, decide_True. }
    split; [done|].
    apply (Hnot (step (Press Stop) r)); [by constructor|].
    cbn. by rewrite Hfin.
  - intros e Hord. apply Hnot. by constructor.
Qed.

(** C6 (defect in the code): an interval survives the transition out of
    Recording.  [startRecording] overwrites [timerIntervalRef] without
    clearing the interval it held: after two presses on start made before
    the first permission request is answered, both granted, stop cancels
    the second interval only.  The first is still live in Finished, still
    counts, and survives the discard and the cleanup run at unmount. *)
Theorem C6_overlapping_starts_leak_interval :
  let r := run overlappingStarts initial in
  reachable r /\
  status r = FINISHED /\ timerInterval r = Some 2 /\ intervals r = {[1]} /\
  timer (tick 1 r) = S (timer r) /\
  status (press Reset r) = IDLE /\ intervals (press Reset r) = {[1]} /\
  Capture.unmountCleanup r = {[1]}.
Proof.
  split; [apply reachable_run|].
  split_and!; vm_compute; reflexivity.
Qed.

(** *** The elapsed-seconds counter *)

(** C8: the elapsed-seconds counter is 0 when a start succeeds, each tick
    of a live interval while recording adds exactly 1 and keeps the
    recorder in Recording, and the counter is 0 right after any reset.
    While recording, the interval held in the ref is live. *)
Theorem C8_elapsed_seconds (r : Recorder) :
  (timer (startGranted r) = 0 /\ status (startGranted r) = RECORDING /\
   status (startRecording true r) = RECORDING /\
   timer (startRecording true r) = 0) /\
  (forall h, status r = RECORDING -> h ∈ intervals r ->
      timer (tick h r) = S (timer r) /\ status (tick h r) = RECORDING) /\
  (timer (clearRecording r) = 0 /\
   (status r = FINISHED -> timer (press Reset r) = 0)) /\
  (reachable r -> status r = RECORDING ->
     exists h, timerInterval r = Some h /\ h ∈ intervals r).
Proof.
  split_and!; try reflexivity.
  - intros h Hst Hlive. unfold tick. by rewrite decide_True.
  - intros Hst. unfold press. by rewrite Hst.
  - intros Hr Hst. apply reachable_ref_inv in Hr as [_ Hinv].
    destruct (Hinv Hst) as (_ & h & Href & Hlive). by exists (S h).
Qed.

Lemma C8_elapsed_seconds_witness :
  timer (tick 1 recording1) = 1 /\ status (tick 1 recording1) = RECORDING.
Proof.
  apply (C8_elapsed_seconds recording1).
  - reflexivity.
  - vm_compute. reflexivity.
Defined.

End RecorderFacts.

(** ** Search *)

Section SearchFacts.

Import Orchestrator.

(** *** Trimming *)

Lemma truthy_trimStart s : truthy (trimStart s) = negb (whitespaceOnly s).
Proof.
  induction s as [|c s IH]; cbn; [done|].
  destruct (is_white c); cbn; done.
Qed.

Lemma whitespaceOnly_trimStart s :
  whitespaceOnly (trimStart s) = whitespaceOnly s.
Proof.
  induction s as [|c s IH]; cbn; [done|].
  destruct (is_white c) eqn:Hc; cbn; [done|]. by rewrite Hc.
Qed.

Lemma whitespaceOnly_rev_app s1 s2 :
  whitespaceOnly (String.rev_app s1 s2) = whitespaceOnly s1 && whitespaceOnly s2.
Proof.
  revert s2. induction s1 as [|c s1 IH]; intros s2; cbn; [done|].
  rewrite IH. cbn. destruct (is_white c), (whitespaceOnly s1); done.
Qed.

Lemma truthy_rev_app s1 s2 :
  truthy (String.rev_app s1 s2) = truthy s1 || truthy s2.
Proof.
  revert s2. induction s1 as [|c s1 IH]; intros s2; cbn; [done|].
  rewrite IH. cbn. by rewrite orb_true_r.
Qed.

Lemma truthy_trim s : truthy (trim s) = negb (whitespaceOnly s).
Proof.
  unfold trim, trimEnd, String.rev.
  rewrite truthy_rev_app, orb_false_r, truthy_trimStart.
  rewrite whitespaceOnly_rev_app, andb_true_r.
  by rewrite whitespaceOnly_trimStart.
Qed.

Lemma nothingToSearch_spec app :
  nothingToSearch app = true <->
  whitespaceOnly (searchText app) = true /\ audioData app = None.
Proof.
  unfold nothingToSearch. rewrite truthy_trim, negb_involutive.
  rewrite andb_true_iff, negb_true_iff, bool_decide_eq_false.
  rewrite <-eq_None_not_Some. done.
Qed.

(** *** The remote call and the normalization, unfolded *)

Lemma searchMusic_unfold gen parse text audio mime w :
  searchMusic gen parse text audio mime w =
  let req := buildRequest text audio mime in
  match gen req with
  | Rejected _ => (Thrown searchFailedMessage, logged req w)
  | Replied None => (Returned (Records []), logged req w)
  | Replied (Some t) =>
      if truthy t then
        match parse t with
        | Some v => (Returned v, logged req w)
        | None => (Thrown searchFailedMessage, logged req w)
        end
      else (Returned (Records []), logged req w)
  end.
Proof.
  unfold searchMusic, try_catch, mbind, Js_bind, callRemote, parseJson. cbn.
  destruct (gen _) as [e|[t|]]; cbn; try reflexivity.
  destruct (truthy t); cbn; [|reflexivity].
  destruct (parse t); reflexivity.
Qed.

Lemma normalizeId_unfold uuid r w :
  normalizeId uuid r w =
  if keepsId r then (Returned r, w)
  else (Returned (withId (uuid (draws w)) r),
        {| requests := requests w; draws := S (draws w) |}).
Proof. unfold normalizeId. by destruct (keepsId r). Qed.

Lemma mapM_normalizeId uuid l w :
  mapM (normalizeId uuid) l w =
  (Returned (normalizeFrom uuid (draws w) l),
   {| requests := requests w; draws := draws w + drawsNeeded l |}).
Proof.
  revert w. induction l as [|r l IH]; intros [reqs d].
  - unfold drawsNeeded. cbn. by rewrite Nat.add_0_r.
  - unfold drawsNeeded in *. rewrite filter_cons.
    cbn [mapM normalizeFrom]. unfold mbind, Js_bind.
    rewrite normalizeId_unfold. destruct (keepsId r) eqn:Hk.
    + rewrite decide_False by done. rewrite IH. reflexivity.
    + rewrite decide_True by done. rewrite IH. cbn.
      do 3 f_equal. lia.
Qed.

Lemma handleSearch_unfold gen parse uuid app w :
  nothingToSearch app = false ->
  handleSearch gen parse uuid app w =
  let req := requestOf app in
  let w' := logged req w in
  match gen req with
  | Rejected _ => (withState app SearchTab (failed searchFailedMessage), w')
  | Replied None => (withState app SearchTab idleState, w')
  | Replied (Some t) =>
      if truthy t then
        match parse t with
        | None => (withState app SearchTab (failed searchFailedMessage), w')
        | Some ParsedNull =>
            (withState app SearchTab (failed nullMapMessage), w')
        | Some NotArray =>
            (withState app SearchTab (failed notAFunctionMessage), w')
        | Some (Records l) =>
            (withState app SearchTab
               {| isLoading := false; error := None;
                  results := normalizeFrom uuid (draws w) l |},
             {| requests := requests w'; draws := draws w + drawsNeeded l |})
        | Some (RecordsThenNull l) =>
            (withState app SearchTab (failed nullIdMessage),
             {| requests := requests w'; draws := draws w + drawsNeeded l |})
        end
      else (withState app SearchTab idleState, w')
  end.
Proof.
  intros Hv. unfold handleSearch. rewrite Hv.
  unfold mbind, Js_bind. rewrite searchMusic_unfold. cbn.
  fold (requestOf app).
  destruct (gen (requestOf app)) as [e|[t|]]; cbn; try reflexivity.
  destruct (truthy t); cbn; [|reflexivity].
  destruct (parse t) as [[| |l|l]|]; cbn; try reflexivity.
  - by rewrite mapM_normalizeId.
  - unfold mbind, Js_bind. by rewrite mapM_normalizeId.
Qed.

Lemma length_normalizeFrom uuid n l : length (normalizeFrom uuid n l) = length l.
Proof.
  revert n. induction l as [|r l IH]; intros n; cbn; [done|].
  destruct (keepsId r); cbn; by rewrite IH.
Qed.

(** *** Identifier normalization *)

Lemma keepsId_spec r :
  keepsId r = true <-> exists s, id r = Some s /\ 5 < String.length s.
Proof.
  unfold keepsId. destruct (id r) as [s|].
  - rewrite andb_true_iff, bool_decide_eq_true. split.
    + intros [_ Hlen]. eauto.
    + intros (s' & [= <-] & Hlen). split; [|done].
      destruct s; [cbn in Hlen; lia | done].
  - split; [done | by intros (s & ? & _)].
Qed.

Lemma drawsNeeded_cons r l :
  drawsNeeded (r :: l) = (if keepsId r then 0 else 1) + drawsNeeded l.
Proof.
  unfold drawsNeeded. rewrite filter_cons.
  destruct (keepsId r); [by rewrite decide_False | by rewrite decide_True].
Qed.

Lemma normalizeFrom_lookup uuid n l i r :
  l !! i = Some r ->
  exists r', normalizeFrom uuid n l !! i = Some r' /\
             normalized uuid n (n + drawsNeeded l) r r'.
Proof.
  revert n i. induction l as [|a l IH]; intros n i Hi; [done|].
  rewrite drawsNeeded_cons. cbn [normalizeFrom].
  destruct i as [|i]; cbn in Hi.
  - injection Hi as ->. destruct (keepsId r) eqn:Hk; cbn.
    + exists r. split; [done|]. left. done.
    + exists (withId (uuid n) r). split; [done|]. right. split; [done|].
      exists n. split; [lia|done].
  - destruct (keepsId a) eqn:Hk; cbn.
    + destruct (IH n i Hi) as (r' & Hr' & Hn). exists r'. split; [done|].
      done.
    + destruct (IH (S n) i Hi) as (r' & Hr' & Hn). exists r'. split; [done|].
      destruct Hn as [?|(? & k & ? & ?)]; [by left|right].
      split; [done|]. exists k. split; [lia|done].
Qed.

Lemma normalizeFrom_lookup_inv uuid n l j r' :
  normalizeFrom uuid n l !! j = Some r' ->
  exists r, l !! j = Some r /\ normalized uuid n (n + drawsNeeded l) r r'.
Proof.
  intros Hj. assert (Hlt : j < length l).
  { rewrite <-(length_normalizeFrom uuid n). by eapply lookup_lt_Some. }
  apply lookup_lt_is_Some in Hlt as [r Hr]. exists r. split; [done|].
  destruct (normalizeFrom_lookup uuid n l j r Hr) as (r'' & Hr'' & Hn).
  congruence.
Qed.

Lemma normalized_id_ne uuid lo hi l k r r' :
  freshOn uuid lo hi l -> lo <= k < hi -> r ∈ l ->
  normalized uuid lo hi r r' -> (keepsId r = false -> id r' <> Some (uuid k)) ->
  id r' <> Some (uuid k).
Proof.
  intros [_ Hkept] Hk Hel [[Hkeep ->]|[Hrep _]] Hgen.
  - by apply Hkept.
  - by apply Hgen.
Qed.

Lemma normalizeFrom_distinct uuid n l :
  freshOn uuid n (n + drawsNeeded l) l ->
  forall i j r r' r'',
    i <> j -> l !! i = Some r -> keepsId r = false ->
    normalizeFrom uuid n l !! i = Some r' ->
    normalizeFrom uuid n l !! j = Some r'' ->
    id r'' <> id r'.
Proof.
  revert n. induction l as [|a l IH]; intros n Hfresh i j r r' r'' Hij Hi Hk Hi' Hj';
    [done|].
  rewrite drawsNeeded_cons in Hfresh. destruct Hfresh as [Hdraws Hkept].
  cbn [normalizeFrom] in Hi', Hj'.
  destruct i as [|i], j as [|j]; [done|..].
  - (* the head is replaced, the other record is in the tail *)
    cbn in Hi. injection Hi as ->. rewrite Hk in Hi', Hj', Hdraws, Hkept.
    cbn in Hi', Hj'. injection Hi' as <-. cbn.
    apply normalizeFrom_lookup_inv in Hj' as (r0 & Hr0 & [[Hk0 ->]|[Hk0 (k & Hkr & ->)]]).
    + apply (Hkept n r0); [lia| |done].
      apply list_elem_of_further. by eapply list_elem_of_lookup_2.
    + cbn. intros [= Heq]. apply (Hdraws n k); [lia|lia|done].
  - (* the replaced record is in the tail, the other one is the head *)
    change (l !! i = Some r) in Hi.
    destruct (keepsId a) eqn:Hka; cbn in Hi', Hj'; injection Hj' as <-.
    + apply normalizeFrom_lookup_inv in Hi' as (r0 & Hr0 & [[Hk0 ->]|[Hk0 (k & Hkr & ->)]]);
        [exfalso; congruence|].
      cbn. apply (Hkept k a); [lia|by left|done].
    + apply normalizeFrom_lookup_inv in Hi' as (r0 & Hr0 & [[Hk0 ->]|[Hk0 (k & Hkr & ->)]]);
        [exfalso; congruence|].
      cbn. intros [= Heq]. apply (Hdraws n k); [lia|lia|done].
  - (* both in the tail *)
    change (l !! i = Some r) in Hi.
    destruct (keepsId a) eqn:Hka; cbn in Hi', Hj'.
    + apply (IH n) with (i := i) (j := j) (r := r); try done; [|lia].
      split.
      * intros k1 k2 ? ?. apply Hdraws; lia.
      * intros k r0 ? ? ?. apply Hkept; [lia|by right|done].
    + apply (IH (S n)) with (i := i) (j := j) (r := r); try done; [|lia].
      split.
      * intros k1 k2 ? ?. apply Hdraws; lia.
      * intros k r0 ? ? ?. apply Hkept; [lia|by right|done].
Qed.




Lemma sampleUUID_fresh : freshOn sampleUUID 0 2 sampleBatch.
Proof.
  split.
  - intros [|[|k1]] [|[|k2]] ? ?; try lia. done.
  - intros [|[|k]] r ? Hr Hk; try lia.
    + repeat (apply elem_of_cons in Hr as [->|Hr]; [done|]).
      by apply elem_of_nil in Hr.
    + repeat (apply elem_of_cons in Hr as [->|Hr]; [done|]).
      by apply elem_of_nil in Hr.
Qed.


(** *** Request construction *)

Lemma truthy_false s : truthy s = false <-> s = EmptyString.
Proof. by destruct s. Qed.

Lemma prompts_distinct t t' :
  audioTextPrompt t <> audioOnlyPrompt /\
  audioTextPrompt t <> textOnlyPrompt t' /\
  audioOnlyPrompt <> textOnlyPrompt t'.
Proof.
  split_and!; intros Heq.
  - apply (f_equal (String.get 11)) in Heq. vm_compute in Heq. discriminate.
  - apply (f_equal (String.get 0)) in Heq. vm_compute in Heq. discriminate.
  - apply (f_equal (String.get 0)) in Heq. vm_compute in Heq. discriminate.
Qed.

(** C7: [searchMusic] builds one text part, whose prompt is exactly one of
    three texts that differ whatever the user's text is: with a non-empty
    payload and a non-empty text, the audio-and-text prompt quoting the
    text; with a non-empty payload and an empty text, the audio-only
    prompt; without payload, the text-only prompt quoting the text.  The
    payload is attached exactly when it is there, under the given media
    type or ['audio/webm'] when none is given. *)
Theorem C7_prompt_shapes (text : string) (audioBase64 mimeTypeArg : option string) :
  let req := buildRequest text audioBase64 mimeTypeArg in
  let quote := String "034"%char EmptyString in
  let audioAndText := fun t : string =>
    "Identify the song based on the audio melody provided AND the following user description: "
    ++ quote ++ t ++ quote ++ ". " ++ String "010"%char EmptyString
    ++ "    The audio is the primary source for melody matching, but use the text for context." in
  let audioOnly :=
    "Identify this song based on the hummed or recorded melody. Return the most likely matches." in
  let textOnly := fun t : string =>
    "Find songs matching this description: " ++ quote ++ t ++ quote
    ++ ". If it mentions a movie scene, mood, or vague lyrics, use your knowledge to find the specific track." in
  (forall a, audioBase64 = Some a -> a <> EmptyString ->
     let inline :=
       InlinePart {| inlineMimeType := default "audio/webm" mimeTypeArg;
                     data := a |} in
     (text <> EmptyString ->
        parts req = [TextPart (audioAndText text); inline]) /\
     (text = EmptyString -> parts req = [TextPart audioOnly; inline])) /\
  (audioBase64 = None \/ audioBase64 = Some EmptyString ->
     parts req = [TextPart (textOnly text)]) /\
  (exists p rest, parts req = TextPart p :: rest /\
     (forall q, TextPart q ∈ rest -> False) /\
     (p = audioAndText text \/ p = audioOnly \/ p = textOnly text)) /\
  (forall t t', audioAndText t <> audioOnly /\
                audioAndText t <> textOnly t' /\
                audioOnly <> textOnly t').
Proof.
  cbv zeta. change (String "034" EmptyString) with dquote.
  change (String "010" EmptyString) with newline.
  fold audioOnlyPrompt.
  change (fun t : string =>
    "Identify the song based on the audio melody provided AND the following user description: "
    ++ dquote ++ t ++ dquote ++ ". " ++ newline
    ++ "    The audio is the primary source for melody matching, but use the text for context.")
    with audioTextPrompt.
  change (fun t : string =>
    "Find songs matching this description: " ++ dquote ++ t ++ dquote
    ++ ". If it mentions a movie scene, mood, or vague lyrics, use your knowledge to find the specific track.")
    with textOnlyPrompt.
  cbn [buildRequest parts]. split_and!.
  - intros a -> Ha.
    assert (Hta : truthy a = true) by (by destruct a).
    unfold requestParts, promptText. cbn. rewrite Hta. cbn. split.
    + intros Ht. assert (Htt : truthy text = true) by (by destruct text).
      by rewrite Htt.
    + by intros ->.
  - intros Ha.
    assert (Hta : truthy_opt audioBase64 = false) by (by destruct Ha as [->| ->]).
    unfold requestParts, promptText. rewrite Hta. cbn.
    by destruct Ha as [->| ->].
  - unfold requestParts, promptText. eexists _, _. split; [reflexivity|]. split.
    + intros q Hq. destruct audioBase64 as [a|]; [destruct (truthy a)|].
      * apply list_elem_of_singleton in Hq. discriminate.
      * by apply elem_of_nil in Hq.
      * by apply elem_of_nil in Hq.
    + destruct (truthy_opt audioBase64), (truthy text); cbn; auto.
  - apply prompts_distinct.
Qed.

Lemma C7_prompt_shapes_witness :
  parts (buildRequest EmptyString (Some "AAAA") (Some "audio/webm")) =
    [TextPart "Identify this song based on the hummed or recorded melody. Return the most likely matches.";
     InlinePart {| inlineMimeType := "audio/webm"; data := "AAAA" |}] /\
  parts (buildRequest "hum" None None) =
    [TextPart ("Find songs matching this description: "
               ++ String "034"%char ("hum" ++ String "034"%char
               ". If it mentions a movie scene, mood, or vague lyrics, use your knowledge to find the specific track."))].
Proof.
  split.
  - destruct (C7_prompt_shapes EmptyString (Some "AAAA") (Some "audio/webm"))
      as [Haudio _].
    destruct (Haudio "AAAA" eq_refl) as [_ Honly]; [discriminate|].
    exact (Honly eq_refl).
  - destruct (C7_prompt_shapes "hum" None None) as (_ & Htext & _).
    apply Htext. by left.
Defined.

(** *** Validation *)

(** C4: with a blank text and no audio, [handleSearch] ends with the
    validation message and the world, the log of remote requests included,
    is untouched; when the text is not blank or audio is present, the
    validation message is not the outcome and exactly one request is sent. *)
Theorem C4_validation gen parse uuid (app : App) (w : World) :
  (whitespaceOnly (searchText app) = true -> audioData app = None ->
     error (state (handleSearch gen parse uuid app w).1) = Some validationMessage /\
     (handleSearch gen parse uuid app w).2 = w) /\
  (whitespaceOnly (searchText app) = false \/ audioData app <> None ->
     error (state (handleSearch gen parse uuid app w).1) <> Some validationMessage /\
     requests (handleSearch gen parse uuid app w).2 = (requests w ++ [requestOf app])%list).
Proof.
  split.
  - intros Hs Ha. assert (Hv : nothingToSearch app = true).
    { by apply nothingToSearch_spec. }
    unfold handleSearch. by rewrite Hv.
  - intros Hor. assert (Hv : nothingToSearch app = false).
    { apply not_true_is_false. rewrite nothingToSearch_spec.
      intros [Hs Ha]. destruct Hor as [Hs'|Ha']; congruence. }
    rewrite handleSearch_unfold by done. cbn.
    destruct (gen (requestOf app)) as [e|[t|]]; cbn; [done|..|done].
    destruct (truthy t); cbn; [|done].
    destruct (parse t) as [[| |l|l]|]; cbn; done.
Qed.

Lemma C4_validation_witness :
  (error (state (handleSearch rejectingRemote parseNothing constantUUID
                   blankQuery freshWorld).1) = Some validationMessage /\
   (handleSearch rejectingRemote parseNothing constantUUID
      blankQuery freshWorld).2 = freshWorld) /\
  (error (state (handleSearch rejectingRemote parseNothing constantUUID
                   textQuery freshWorld).1) <> Some validationMessage /\
   requests (handleSearch rejectingRemote parseNothing constantUUID
               textQuery freshWorld).2 = (requests freshWorld ++ [requestOf textQuery])%list).
Proof.
  split.
  - apply (C4_validation rejectingRemote parseNothing constantUUID
             blankQuery freshWorld); reflexivity.
  - apply (C4_validation rejectingRemote parseNothing constantUUID
             textQuery freshWorld). left. reflexivity.
Defined.

(** C10: when validation fails, [handleSearch] changes the error message
    and nothing else: the loading flag, the results shown, the inputs and the
    active tab are those it found. *)
Theorem C10_validation_frame gen parse uuid (app : App) (w : World) :
  whitespaceOnly (searchText app) = true -> audioData app = None ->
  let app' := (handleSearch gen parse uuid app w).1 in
  error (state app') = Some validationMessage /\
  isLoading (state app') = isLoading (state app) /\
  results (state app') = results (state app) /\
  searchText app' = searchText app /\
  audioData app' = audioData app /\
  activeTab app' = activeTab app.
Proof.
  intros Hs Ha. assert (Hv : nothingToSearch app = true).
  { by apply nothingToSearch_spec. }
  unfold handleSearch. by rewrite Hv.
Qed.

Lemma C10_validation_frame_witness :
  let app' := (handleSearch rejectingRemote parseNothing constantUUID
                 blankQuery freshWorld).1 in
  error (state app') = Some validationMessage /\
  isLoading (state app') = true /\
  results (state app') = [aSong] /\
  searchText app' = searchText blankQuery /\
  audioData app' = None /\
  activeTab app' = FavoritesTab.
Proof.
  apply (C10_validation_frame rejectingRemote parseNothing constantUUID
           blankQuery freshWorld); reflexivity.
Defined.

(** *** Failures of the remote call *)




End SearchFacts.

(** ** Favorites *)

Section FavoritesFacts.

Import Orchestrator Favorites.

Lemma isFav_hasId song S :
  existsb (fun f => bool_decide (id f = id song)) S = true <-> hasId song S.
Proof.
  rewrite existsb_exists. unfold hasId. split.
  - intros (f & Hin & Hid). exists f. rewrite list_elem_of_In.
    by apply bool_decide_eq_true in Hid.
  - intros (f & Hin & Hid). exists f. rewrite <-list_elem_of_In.
    by rewrite bool_decide_eq_true.
Qed.

Lemma without_absent song S : ~ hasId song S -> without song S = S.
Proof.
  unfold without. induction S as [|a S IH]; intros Hno; [done|].
  rewrite filter_cons_True.
  - f_equal. apply IH. intros (f & Hin & Hid). apply Hno. exists f.
    split; [by right|done].
  - intros Hid. apply Hno. exists a. split; [by left|done].
Qed.

Lemma without_hasId song S : ~ hasId song (without song S).
Proof.
  unfold without. intros (f & Hin & Hid).
  apply list_elem_of_filter in Hin as [Hne _]. done.
Qed.

Lemma toggle_present song S :
  hasId song S -> toggleFavorite song S = without song S.
Proof.
  intros H. apply isFav_hasId in H. unfold toggleFavorite. by rewrite H.
Qed.

Lemma toggle_absent song S :
  ~ hasId song S -> toggleFavorite song S = (S ++ [song])%list.
Proof.
  intros H. unfold toggleFavorite.
  destruct (existsb _ S) eqn:He; [|done].
  by apply isFav_hasId in He.
Qed.

Lemma complement_only song S :
  NoDup (id <$> S) -> song ∈ S ->
  filter (fun f => ~ id f <> id song) S = [song].
Proof.
  induction S as [|a S IH]; intros Hnd Hin; [by apply elem_of_nil in Hin|].
  rewrite fmap_cons in Hnd. apply NoDup_cons in Hnd as [Ha Hnd].
  apply elem_of_cons in Hin as [->|Hin].
  - rewrite filter_cons_True by (intros Hne; by apply Hne). f_equal.
    clear IH Hnd. induction S as [|b S IH]; [done|].
    rewrite fmap_cons in Ha. apply not_elem_of_cons in Ha as [Hab Ha].
    rewrite filter_cons_False; [by apply IH|].
    intros Hb. apply Hab. destruct (decide (id b = id a)); [done|].
    by destruct Hb.
  - rewrite filter_cons_False; [by apply IH|].
    intros Hb. apply Ha. destruct (decide (id a = id song)) as [->|Hne].
    + by apply list_elem_of_fmap_2.
    + by destruct Hb.
Qed.

(** C5, as stated, fails: toggling the first of two favorites twice moves
    it to the end of the list. *)
Lemma C5_double_toggle_reorders :
  toggleFavorite songA (toggleFavorite songA [songA; songB]) = [songB; songA] /\
  toggleFavorite songA (toggleFavorite songA [songA; songB]) <> [songA; songB].
Proof. split; [vm_compute; reflexivity | vm_compute; discriminate]. Qed.

(** C5 (amended): a single toggle removes every song with the identifier of
    [song] when there is one, keeping the order of the others, and otherwise
    appends [song] at the end.  Toggling twice returns the original list
    when no song with that identifier was in it; when one was, it returns
    the list without the songs of that identifier followed by [song], which
    holds the same songs as the original, in another order, when the
    identifiers of the list are distinct and [song] is in it. *)
Theorem C5_toggle (song : Song) (S : list Song) :
  (hasId song S -> toggleFavorite song S = without song S) /\
  (~ hasId song S -> toggleFavorite song S = (S ++ [song])%list) /\
  (~ hasId song S -> toggleFavorite song (toggleFavorite song S) = S) /\
  (hasId song S ->
     toggleFavorite song (toggleFavorite song S) = (without song S ++ [song])%list) /\
  (song ∈ S -> NoDup (id <$> S) ->
     toggleFavorite song (toggleFavorite song S) ≡ₚ S).
Proof.
  split_and!.
  - apply toggle_present.
  - apply toggle_absent.
  - intros Hno. rewrite (toggle_absent song S Hno).
    rewrite toggle_present
      by (exists song; split; [apply elem_of_app; right; by left|done]).
    unfold without. rewrite filter_app.
    rewrite (filter_cons_False _ song []) by (intros H; by apply H).
    rewrite filter_nil, app_nil_r. by apply without_absent.
  - intros Hyes. rewrite (toggle_present song S Hyes).
    apply toggle_absent, without_hasId.
  - intros Hin Hnd.
    assert (Hyes : hasId song S) by (exists song; done).
    rewrite (toggle_present song S Hyes).
    rewrite toggle_absent by apply without_hasId.
    rewrite <-(complement_only song S Hnd Hin).
    apply filter_app_complement.
Qed.

Lemma C5_toggle_witness :
  toggleFavorite songB (toggleFavorite songB [songA]) = [songA] /\
  toggleFavorite songA (toggleFavorite songA [songA; songB]) ≡ₚ [songA; songB].
Proof.
  split.
  - apply (C5_toggle songB [songA]).
    intros (f & Hin & Hid). apply list_elem_of_singleton in Hin as ->.
    discriminate.
  - apply (C5_toggle songA [songA; songB]).
    + by left.
    + apply (bool_decide_unpack _). vm_compute. exact I.
Defined.

(** The initializer never throws, and it yields the empty list when the
    storage read throws, the key is absent, the stored text is empty, or
    the text is not JSON; a text that parses as JSON is returned as
    parsed. *)
Lemma loadFavorites_degrades parse (item : GetItem) :
  (exists v, loadFavorites parse item = Returned v) /\
  (forall e, item = GetItemThrows e ->
     loadFavorites parse item = Returned (Records [])) /\
  (item = Stored None -> loadFavorites parse item = Returned (Records [])) /\
  (item = Stored (Some EmptyString) ->
     loadFavorites parse item = Returned (Records [])) /\
  (forall saved, item = Stored (Some saved) -> parse saved = None ->
     loadFavorites parse item = Returned (Records [])) /\
  (forall saved v, item = Stored (Some saved) -> truthy saved = true ->
     parse saved = Some v -> loadFavorites parse item = Returned v).
Proof.
  unfold loadFavorites, loadBody. split_and!.
  - destruct item as [e|[saved|]]; eauto.
    destruct (truthy saved); eauto. destruct (parse saved); eauto.
  - by intros e ->.
  - by intros ->.
  - by intros ->.
  - intros saved -> Hp. destruct (truthy saved); [|done]. by rewrite Hp.
  - intros saved v -> Ht Hp. by rewrite Ht, Hp.
Qed.

(** C9 (defect in the code): a stored [null] crashes the start.  The text
    [null] is JSON, so the initializer returns [null] instead of the empty
    list its [catch] branch falls back to, and the first render throws on
    [favorites.length]; an absent key, an empty text or a text that is not
    JSON start with the empty list. *)
Theorem C9_stored_null_crashes_startup :
  loadFavorites parseSample (Stored (Some "null")) = Returned ParsedNull /\
  startup parseSample (Stored (Some "null")) = Thrown nullLengthMessage /\
  startup parseSample (Stored None) = Returned (Records []) /\
  startup parseSample (Stored (Some EmptyString)) = Returned (Records []) /\
  startup parseSample (Stored (Some "{not json")) = Returned (Records []).
Proof. split_and!; reflexivity. Qed.

End FavoritesFacts.

(** ** The recorder's display and capture callbacks *)

Section CaptureFacts.

Import Recorder Capture.

(** *** [formatTime] *)

Lemma length_append s t :
  String.length (s ++ t) = String.length s + String.length t.
Proof.
  induction s as [|a s IH]; [done|].
  change (String a s ++ t) with (String a (s ++ t)). cbn. by rewrite IH.
Qed.

Lemma lacks_app c s t : lacks c (s ++ t) = lacks c s && lacks c t.
Proof.
  induction s as [|a s IH]; [done|].
  change (String a s ++ t) with (String a (s ++ t)). cbn. rewrite IH.
  by rewrite andb_assoc.
Qed.

Lemma pretty_N_char_colon x : pretty_N_char x <> ":"%char.
Proof. unfold pretty_N_char. by repeat case_match. Qed.

Lemma lacks_colon_pretty_N_go x s :
  lacks ":" s = true -> lacks ":" (pretty_N_go x s) = true.
Proof.
  revert s. induction (N.lt_wf_0 x) as [x _ IH]; intros s Hs.
  assert (x = 0 \/ 0 < x)%N as [->|Hpos] by lia.
  - by rewrite pretty_N_go_0.
  - rewrite pretty_N_go_step by done. apply IH; [by apply N.div_lt|].
    cbn. rewrite Hs, andb_true_r, negb_true_iff, bool_decide_eq_false.
    apply pretty_N_char_colon.
Qed.

Lemma lacks_colon_pretty (n : nat) : lacks ":" (pretty n) = true.
Proof.
  unfold pretty, pretty_nat, pretty, pretty_N.
  destruct (decide (N.of_nat n = 0%N)); [done|].
  by apply lacks_colon_pretty_N_go.
Qed.

Lemma app_colon_inj s1 s2 t1 t2 :
  lacks ":" s1 = true -> lacks ":" s2 = true ->
  s1 ++ String ":" t1 = s2 ++ String ":" t2 -> s1 = s2 /\ t1 = t2.
Proof.
  revert s2. induction s1 as [|a s1 IH]; intros [|b s2] H1 H2 Heq.
  - by injection Heq.
  - injection Heq as <- _. cbn in H2. by rewrite bool_decide_true in H2.
  - injection Heq as -> _. cbn in H1. by rewrite bool_decide_true in H1.
  - injection Heq as -> Heq. cbn in H1, H2.
    apply andb_true_iff in H1 as [_ H1]. apply andb_true_iff in H2 as [_ H2].
    destruct (IH s2 H1 H2 Heq) as [-> ->]. done.
Qed.

Lemma secondsFields_lookup x :
  x < 60 -> secondsFields !! x = Some (padStart 2 "0" (pretty x)).
Proof.
  intros Hx. unfold secondsFields. rewrite list_lookup_fmap.
  by rewrite lookup_seq_lt.
Qed.

Lemma secondsFields_NoDup : NoDup secondsFields.
Proof. apply (bool_decide_unpack _). vm_compute. exact I. Qed.

Lemma secondsFields_length :
  Forall (fun f => String.length f = 2) secondsFields.
Proof. apply (bool_decide_unpack _). vm_compute. exact I. Qed.

(** X1: [formatTime] shows different elapsed times differently. *)
Theorem X1_formatTime_inj (a b : nat) : formatTime a = formatTime b -> a = b.
Proof.
  unfold formatTime. intros Heq.
  apply app_colon_inj in Heq as [Hm Hs]; [|apply lacks_colon_pretty..].
  apply (inj pretty) in Hm.
  assert (Hsec : a mod 60 = b mod 60).
  { eapply (NoDup_lookup secondsFields); [apply secondsFields_NoDup|..].
    - apply secondsFields_lookup, Nat.mod_upper_bound. lia.
    - rewrite Hs. apply secondsFields_lookup, Nat.mod_upper_bound. lia. }
  rewrite (Nat.div_mod_eq a 60), (Nat.div_mod_eq b 60). lia.
Qed.

Lemma X1_formatTime_inj_witness : 75 = 75.
Proof. apply (X1_formatTime_inj 75 75). reflexivity. Defined.

(** X2: the seconds are always shown on two characters: the text is the
    decimal writing of the minutes, a colon and two more characters, so
    below one minute it is [0:] followed by the two-character field. *)
Theorem X2_formatTime_shape (seconds : nat) :
  String.length (formatTime seconds) = String.length (pretty (seconds / 60)) + 3 /\
  (seconds < 60 ->
     formatTime seconds = "0:" ++ padStart 2 "0" (pretty seconds)) /\
  (seconds mod 60 < 10 ->
     formatTime seconds =
       pretty (seconds / 60) ++ ":0" ++ pretty (seconds mod 60)).
Proof.
  assert (Hlen : String.length (padStart 2 "0" (pretty (seconds mod 60))) = 2).
  { assert (Hx : seconds mod 60 < 60) by (apply Nat.mod_upper_bound; lia).
    apply secondsFields_lookup in Hx.
    by apply (Forall_lookup_1 _ _ _ _ secondsFields_length Hx). }
  split_and!.
  - unfold formatTime. rewrite !length_append, Hlen. cbn. lia.
  - intros Hlt. unfold formatTime.
    by rewrite Nat.div_small, Nat.mod_small.
  - intros Hlt. unfold formatTime.
    assert (Hpad : padStart 2 "0" (pretty (seconds mod 60)) =
                   "0" ++ pretty (seconds mod 60)).
    { remember (seconds mod 60) as x eqn:Hx. clear Hx Hlen.
      do 10 (destruct x as [|x]; [reflexivity|]). lia. }
    rewrite Hpad. reflexivity.
Qed.

Lemma X2_formatTime_shape_witness :
  formatTime 45 = "0:45" /\ formatTime 125 = "2:05".
Proof.
  split.
  - apply (X2_formatTime_shape 45). lia.
  - apply (X2_formatTime_shape 125). cbn. lia.
Defined.

(** *** Chunks and the payload *)

Lemma collect_filter events chunks :
  collect events chunks =
  (chunks ++ filter (fun d => 0 < String.length d) events)%list.
Proof.
  unfold collect. revert chunks.
  induction events as [|d events IH]; intros chunks.
  - by rewrite filter_nil, app_nil_r.
  - cbn [foldl]. rewrite IH. unfold ondataavailable. rewrite filter_cons.
    destruct (decide (0 < String.length d)).
    + rewrite bool_decide_true by done. by rewrite <-app_assoc.
    + by rewrite bool_decide_false.
Qed.

Lemma blobOf_filter events :
  blobOf (filter (fun d => 0 < String.length d) events) = blobOf events.
Proof.
  induction events as [|d events IH]; [done|].
  rewrite filter_cons. destruct (decide (0 < String.length d)) as [Hd|Hd].
  - change (d ++ blobOf (filter (fun d => 0 < String.length d) events) =
            d ++ blobOf events). by rewrite IH.
  - rewrite IH. destruct d; [done|cbn in Hd; lia].
Qed.

(** X3: after any sequence of [dataavailable] events on a fresh recording,
    the chunks are the non-empty blobs in their order of arrival, none of
    them is empty, and the assembled recording has the bytes of all the
    data received: dropping the empty chunks loses nothing. *)
Theorem X3_chunks_collect (events : list string) :
  collect events [] = filter (fun d => 0 < String.length d) events /\
  Forall (fun d => 0 < String.length d) (collect events []) /\
  blobOf (collect events []) = blobOf events.
Proof.
  rewrite collect_filter. cbn. split_and!.
  - done.
  - apply Forall_forall. intros d Hd.
    by apply list_elem_of_filter in Hd as [? _].
  - apply blobOf_filter.
Qed.

Lemma split_lacks sep s : lacks sep s = true -> split sep s = [s].
Proof.
  induction s as [|c s IH]; [done|]. cbn. intros H.
  apply andb_true_iff in H as [Hc Hs].
  apply negb_true_iff, bool_decide_eq_false in Hc.
  rewrite decide_False by done. by rewrite IH.
Qed.

Lemma split_cons_ne sep c s :
  c <> sep ->
  split sep (String c s) =
  match split sep s with
  | x :: xs => String c x :: xs
  | [] => [String c EmptyString]
  end.
Proof. intros H. cbn. by rewrite decide_False. Qed.

Lemma split_prefix sep p e :
  lacks sep p = true -> split sep (p ++ String sep e) = p :: split sep e.
Proof.
  induction p as [|c p IH]; intros H.
  - change (EmptyString ++ String sep e) with (String sep e).
    cbn [split]. by rewrite decide_True.
  - cbn in H. apply andb_true_iff in H as [Hc Hp].
    apply negb_true_iff, bool_decide_eq_false in Hc.
    change (String c p ++ String sep e) with (String c (p ++ String sep e)).
    rewrite split_cons_ne by done. by rewrite IH.
Qed.

Lemma onstop_comma_free (base64 : string -> string) (chunks : list string) :
  lacks "," (base64 (blobOf chunks)) = true ->
  onstop base64 chunks = (Some (base64 (blobOf chunks)), "audio/webm").
Proof.
  intros H. unfold onstop, readAsDataURL, blobType.
  change ("data:" ++ "audio/webm" ++ ";base64," ++ base64 (blobOf chunks))
    with ("data:audio/webm;base64" ++ String "," (base64 (blobOf chunks))).
  rewrite split_prefix by reflexivity. by rewrite split_lacks.
Qed.

(** X4: when the encoding of the recording has no comma, as in base64,
    the payload [onstop] hands to [onRecordingComplete] is exactly that
    encoding of the chunks put end to end, and the type is [audio/webm]; in
    general the payload is the first comma-separated field of the
    encoding. *)
Theorem X4_onstop_payload (base64 : string -> string) (chunks : list string) :
  onstop base64 chunks =
    (head (split "," (base64 (blobOf chunks))), "audio/webm") /\
  (lacks "," (base64 (blobOf chunks)) = true ->
     onstop base64 chunks = (Some (base64 (blobOf chunks)), "audio/webm")).
Proof.
  split; [|apply onstop_comma_free].
  unfold onstop, readAsDataURL, blobType.
  change ("data:" ++ "audio/webm" ++ ";base64," ++ base64 (blobOf chunks))
    with ("data:audio/webm;base64" ++ String "," (base64 (blobOf chunks))).
  rewrite split_prefix by reflexivity.
  by destruct (split "," (base64 (blobOf chunks))).
Qed.

Lemma X4_onstop_payload_witness :
  onstop plainEncoding ["GkXf"; "o0AB"] = (Some "GkXfo0AB", "audio/webm").
Proof.
  apply (X4_onstop_payload plainEncoding ["GkXf"; "o0AB"]). reflexivity.
Defined.

(** *** Intervals and ticks *)

(** X5: when a recorder driven through its controls, with no start pressed
    while a permission request is pending, is unmounted, the cleanup of the
    mount effect leaves no interval live. *)
Theorem X5_unmount_clears_interval (r : Recorder) :
  orderly r -> unmountCleanup r = ∅.
Proof.
  intros Hr. apply orderly_timer_inv in Hr as (_ & _ & Hinv).
  unfold unmountCleanup. destruct (status r).
  - rewrite Hinv. destruct (timerInterval r) as [[|h]|]; cbn; [done| |done].
    apply difference_disjoint_L, disjoint_empty_l.
  - destruct Hinv as (h & -> & -> & _). cbn. apply difference_diag_L.
  - rewrite Hinv. destruct (timerInterval r) as [[|h]|]; cbn; [done| |done].
    apply difference_disjoint_L, disjoint_empty_l.
Qed.

Lemma X5_unmount_clears_interval_witness : unmountCleanup recording1 = ∅.
Proof. apply (X5_unmount_clears_interval recording1), orderly_recording1. Defined.

Lemma run_ticks n h r :
  h ∈ intervals r ->
  timer (run (replicate n (Tick h)) r) = timer r + n /\
  status (run (replicate n (Tick h)) r) = status r /\
  intervals (run (replicate n (Tick h)) r) = intervals r.
Proof.
  revert r. induction n as [|n IH]; intros r Hlive.
  - cbn. by rewrite Nat.add_0_r.
  - change (run (replicate (S n) (Tick h)) r)
      with (run (replicate n (Tick h)) (tick h r)).
    assert (Hstep : timer (tick h r) = S (timer r) /\
                    status (tick h r) = status r /\
                    intervals (tick h r) = intervals r).
    { unfold tick. by rewrite decide_True. }
    destruct Hstep as (Ht & Hs & Hi).
    destruct (IH (tick h r)) as (Ht' & Hs' & Hi'); [by rewrite Hi|].
    rewrite Ht', Hs', Hi', Ht, Hs, Hi. split_and!; [lia|done|done].
Qed.

(** X6: the counter counts the ticks and stops with the recording: [n]
    ticks of a live interval add [n] and leave the status alone; in a
    recorder driven through its controls (no start pressed while a request
    is pending) a tick outside Recording changes nothing. *)
Theorem X6_ticks_count (r : Recorder) (h n : nat) :
  (h ∈ intervals r ->
     timer (run (replicate n (Tick h)) r) = timer r + n /\
     status (run (replicate n (Tick h)) r) = status r) /\
  (orderly r -> status r <> RECORDING -> tick h r = r).
Proof.
  split.
  - intros Hlive. destruct (run_ticks n h r Hlive) as (? & ? & _). done.
  - intros Hr Hst. apply orderly_timer_inv in Hr as (_ & _ & Hinv).
    assert (Hnone : intervals r = ∅) by (by destruct (status r)).
    unfold tick. rewrite decide_False; [done|].
    rewrite Hnone. apply not_elem_of_empty.
Qed.

Lemma X6_ticks_count_witness :
  timer (run (replicate 7 (Tick 1)) recording1) = 7 /\
  tick 1 (press Stop recording1) = press Stop recording1.
Proof.
  split.
  - apply (X6_ticks_count recording1 1 7). vm_compute. reflexivity.
  - apply (X6_ticks_count (press Stop recording1) 1 0).
    + apply (orderly_step (Press Stop)); [apply orderly_recording1|done].
    + discriminate.
Defined.

Lemma stopRecording_outside r : status r <> RECORDING -> stopRecording r = r.
Proof.
  intros Hst. unfold stopRecording.
  destruct (mediaRecorder r); [|done]. by rewrite decide_False.
Qed.

Lemma stopRecording_cases r :
  stopRecording r = r \/ status (stopRecording r) = FINISHED.
Proof.
  unfold stopRecording. destruct (mediaRecorder r); [|by left].
  destruct (decide (status r = RECORDING)); [by right|by left].
Qed.

(** X7: stopping twice is stopping once: a second call of [stopRecording]
    changes nothing, whatever the state of the first. *)
Theorem X7_stopRecording_idempotent (r : Recorder) :
  stopRecording (stopRecording r) = stopRecording r.
Proof.
  destruct (stopRecording_cases r) as [Hsame|Hfin].
  - by rewrite !Hsame.
  - apply stopRecording_outside. by rewrite Hfin.
Qed.

End CaptureFacts.

(** ** The other handlers of [App] *)

Section AppFacts.

Import Orchestrator Favorites AppActions.

(** *** Favorites as shown *)

Lemma isFav_true favorites song : isFav favorites song = true <-> hasId song favorites.
Proof. apply isFav_hasId. Qed.

Lemma hasId_cases song S : hasId song S \/ ~ hasId song S.
Proof.
  destruct (isFav S song) eqn:H.
  - left. by apply isFav_true.
  - right. intros Hyes. apply isFav_true in Hyes. congruence.
Qed.

Lemma hasId_toggle_same song S :
  hasId song (toggleFavorite song S) <-> ~ hasId song S.
Proof.
  split.
  - intros Hafter Hbefore. rewrite (toggle_present song S Hbefore) in Hafter.
    by apply without_hasId in Hafter.
  - intros Hno. rewrite (toggle_absent song S Hno). exists song.
    split; [|done]. apply elem_of_app. right. by left.
Qed.

Lemma hasId_toggle_other song other S :
  id other <> id song ->
  hasId other (toggleFavorite song S) <-> hasId other S.
Proof.
  intros Hne. destruct (hasId_cases song S) as [Hyes|Hno].
  - rewrite (toggle_present song S Hyes). unfold without, hasId. split.
    + intros (f & Hin & Hid). apply list_elem_of_filter in Hin as [_ Hin]. eauto.
    + intros (f & Hin & Hid). exists f. split; [|done].
      apply list_elem_of_filter. split; [congruence|done].
  - rewrite (toggle_absent song S Hno). unfold hasId. split.
    + intros (f & Hin & Hid). apply elem_of_app in Hin as [Hin|Hin]; [eauto|].
      apply list_elem_of_singleton in Hin as ->. done.
    + intros (f & Hin & Hid). exists f. split; [|done].
      apply elem_of_app. by left.
Qed.

Lemma bool_eq_iff (a b : bool) : (a = true <-> b = true) -> a = b.
Proof.
  destruct a, b; intros [H1 H2]; try reflexivity.
  - symmetry. by apply H1.
  - by apply H2.
Qed.

(** X8: a toggle flips the heart of the song toggled and of no song with
    another identifier. *)
Theorem X8_toggle_flips_isFav (song other : Song) (S : list Song) :
  isFav (toggleFavorite song S) song = negb (isFav S song) /\
  (id other <> id song ->
     isFav (toggleFavorite song S) other = isFav S other).
Proof.
  split.
  - apply bool_eq_iff. rewrite isFav_true, hasId_toggle_same.
    rewrite negb_true_iff, <-not_true_iff_false. by rewrite isFav_true.
  - intros Hne. apply bool_eq_iff. rewrite !isFav_true.
    by apply hasId_toggle_other.
Qed.

Lemma X8_toggle_flips_isFav_witness :
  isFav (toggleFavorite songA [songA; songB]) songB = isFav [songA; songB] songB.
Proof. apply (X8_toggle_flips_isFav songA songB [songA; songB]). discriminate. Defined.

Lemma complement_by_id song f S :
  NoDup (id <$> S) -> f ∈ S -> id f = id song ->
  filter (fun x => ~ id x <> id song) S = [f].
Proof.
  intros Hnd Hin Hid. rewrite <-(complement_only f S Hnd Hin).
  apply list_filter_iff. intros x. by rewrite Hid.
Qed.

(** X9: a toggle keeps the identifiers of the favorites pairwise different
    and changes their number by exactly one: one more when no favorite had
    the identifier, one less when one had. *)
Theorem X9_toggle_keeps_ids_distinct (song : Song) (S : list Song) :
  NoDup (id <$> S) ->
  NoDup (id <$> toggleFavorite song S) /\
  (~ hasId song S -> length (toggleFavorite song S) = length S + 1) /\
  (hasId song S -> length (toggleFavorite song S) + 1 = length S).
Proof.
  intros Hnd. split_and!.
  - destruct (hasId_cases song S) as [Hyes|Hno].
    + rewrite (toggle_present song S Hyes).
      apply (sublist_NoDup _ (id <$> S)); [done|]. apply fmap_sublist, sublist_filter.
    + rewrite (toggle_absent song S Hno), fmap_app. apply NoDup_app.
      split_and!; [done| |apply NoDup_singleton].
      intros x Hx Hx'. apply list_elem_of_singleton in Hx' as ->.
      apply list_elem_of_fmap in Hx as (f & Hid & Hin). apply Hno. by exists f.
  - intros Hno. rewrite (toggle_absent song S Hno), length_app. done.
  - intros (f & Hin & Hid).
    rewrite (toggle_present song S) by (by exists f).
    pose proof (filter_app_complement (fun x => id x <> id song) S) as Hperm.
    cbv beta in Hperm. rewrite (complement_by_id song f S Hnd Hin Hid) in Hperm.
    apply Permutation_length in Hperm. rewrite length_app in Hperm.
    unfold without. cbn in Hperm. lia.
Qed.

Lemma X9_toggle_keeps_ids_distinct_witness :
  NoDup (id <$> toggleFavorite songA [songA; songB]) /\
  length (toggleFavorite songA [songA; songB]) + 1 = 2.
Proof.
  destruct (X9_toggle_keeps_ids_distinct songA [songA; songB])
    as (Hnd & _ & Hlen).
  - apply (bool_decide_unpack _). vm_compute. exact I.
  - split; [exact Hnd|]. apply Hlen. exists songA. split; [by left|done].
Defined.

(** *** Clearing and validation *)

Lemma hasContent_false app :
  hasContent app = false <->
  searchText app = EmptyString /\ audioData app = None /\
  results (state app) = [].
Proof.
  unfold hasContent. rewrite !orb_false_iff, !bool_decide_eq_false. split.
  - intros [[Ht Ha] Hr]. split_and!.
    + destruct (searchText app); [done|cbn in Ht; lia].
    + by destruct (audioData app); [destruct Ha|].
    + destruct (results (state app)); [done|cbn in Hr; lia].
  - intros (-> & -> & ->). split_and!; [cbn; lia|by intros H|cbn; lia].
Qed.

(** X11: whenever the clear button is hidden for lack of content (no text,
    no audio, no results), a search is refused by validation: the only
    change is the validation message, and no request is sent. *)
Theorem X11_no_content_refused gen parse uuid (app : App) (w : World) :
  hasContent app = false ->
  nothingToSearch app = true /\
  handleSearch gen parse uuid app w =
    (withState app (activeTab app)
       {| isLoading := isLoading (state app);
          error := Some validationMessage; results := [] |}, w).
Proof.
  intros H. apply hasContent_false in H as (Ht & Ha & Hr).
  assert (Hv : nothingToSearch app = true).
  { apply nothingToSearch_spec. by rewrite Ht. }
  split; [done|]. unfold handleSearch. by rewrite Hv, Hr.
Qed.

Lemma X11_no_content_refused_witness :
  nothingToSearch (clearAll textQuery) = true.
Proof.
  apply (X11_no_content_refused rejectingRemote parseNothing constantUUID
           (clearAll textQuery) freshWorld).
  reflexivity.
Defined.

(** X12: [clearAll] leaves nothing to clear or to search: afterwards the
    clear button is hidden, clearing again changes nothing, and a search
    ends with the validation message, not loading, without results and
    without a request. *)
Theorem X12_clearAll_then_search gen parse uuid (app : App) (w : World) :
  hasContent (clearAll app) = false /\
  clearAll (clearAll app) = clearAll app /\
  state (handleSearch gen parse uuid (clearAll app) w).1 = failed validationMessage /\
  (handleSearch gen parse uuid (clearAll app) w).2 = w.
Proof.
  assert (Hv : nothingToSearch (clearAll app) = true) by reflexivity.
  split_and!; [reflexivity|reflexivity| |].
  - unfold handleSearch. by rewrite Hv.
  - unfold handleSearch. by rewrite Hv.
Qed.

(** *** Audio in the request *)

Lemma requestOf_with_audio (payload type : string) (app : App) :
  truthy payload = true ->
  parts (requestOf (handleAudioComplete payload type app)) =
    [TextPart (if truthy (searchText app)
               then audioTextPrompt (searchText app) else audioOnlyPrompt);
     InlinePart {| inlineMimeType := type; data := payload |}].
Proof.
  intros Hp. unfold requestOf, buildRequest, requestParts, promptText. cbn.
  rewrite Hp. cbn. rewrite Hp. by destruct (truthy (searchText app)).
Qed.

(** X13: once a non-empty payload has been handed over by the recorder, a
    search is never refused by validation, and the one request it sends
    carries the payload under the media type handed over (never the
    default), after the audio-and-text prompt when the text is not empty
    and the audio-only prompt when it is. *)
Theorem X13_audio_in_request gen parse uuid (payload type : string)
    (app : App) (w : World) :
  truthy payload = true ->
  let app' := handleAudioComplete payload type app in
  nothingToSearch app' = false /\
  parts (requestOf app') =
    [TextPart (if truthy (searchText app)
               then audioTextPrompt (searchText app) else audioOnlyPrompt);
     InlinePart {| inlineMimeType := type; data := payload |}] /\
  requests (handleSearch gen parse uuid app' w).2 =
    (requests w ++ [requestOf app'])%list.
Proof.
  intros Hp app'.
  assert (Hv : nothingToSearch app' = false).
  { unfold nothingToSearch. cbn. by rewrite andb_false_r. }
  split_and!; [done| |].
  - by apply requestOf_with_audio.
  - rewrite handleSearch_unfold by done. cbn.
    destruct (gen (requestOf app')) as [e|[t|]]; cbn; try done.
    destruct (truthy t); cbn; [|done].
    destruct (parse t) as [[| |l|l]|]; cbn; done.
Qed.

Lemma X13_audio_in_request_witness :
  parts (requestOf (handleAudioComplete "AAAA" "audio/webm" blankQuery)) =
    [TextPart (audioTextPrompt "  ");
     InlinePart {| inlineMimeType := "audio/webm"; data := "AAAA" |}].
Proof.
  apply (X13_audio_in_request rejectingRemote parseNothing constantUUID
           "AAAA" "audio/webm" blankQuery freshWorld).
  reflexivity.
Defined.

(** X14: an empty payload still counts as audio for validation but is not
    sent: after the recorder hands over an empty payload, a search passes
    validation even with a blank text, and its request is the text-only
    prompt with no audio part. *)
Theorem X14_empty_payload_not_sent gen parse uuid (type : string)
    (app : App) (w : World) :
  let app' := handleAudioComplete EmptyString type app in
  nothingToSearch app' = false /\
  parts (requestOf app') = [TextPart (textOnlyPrompt (searchText app))] /\
  requests (handleSearch gen parse uuid app' w).2 =
    (requests w ++ [requestOf app'])%list.
Proof.
  intros app'.
  assert (Hv : nothingToSearch app' = false).
  { unfold nothingToSearch. cbn. by rewrite andb_false_r. }
  split_and!; [done|reflexivity|].
  rewrite handleSearch_unfold by done. cbn.
  destruct (gen (requestOf app')) as [e|[t|]]; cbn; try done.
  destruct (truthy t); cbn; [|done].
  destruct (parse t) as [[| |l|l]|]; cbn; done.
Qed.

(** X19: from the microphone to the request: when the encoding of what was
    recorded is not empty and has no comma, the payload handed over by
    [onstop] and then sent in the request is the encoding of all the data
    received, in its order of arrival, under the type [audio/webm]. *)
Theorem X19_recorded_audio_is_sent (base64 : string -> string)
    (events : list string) (app : App) :
  truthy (base64 (Capture.blobOf events)) = true ->
  Capture.lacks "," (base64 (Capture.blobOf events)) = true ->
  exists payload type,
    Capture.onstop base64 (Capture.collect events []) = (Some payload, type) /\
    parts (requestOf (handleAudioComplete payload type app)) =
      [TextPart (if truthy (searchText app)
                 then audioTextPrompt (searchText app) else audioOnlyPrompt);
       InlinePart {| inlineMimeType := "audio/webm";
                     data := base64 (Capture.blobOf events) |}].
Proof.
  intros Htruthy Hcomma.
  assert (Hblob : Capture.blobOf (Capture.collect events []) =
                  Capture.blobOf events).
  { rewrite collect_filter. apply blobOf_filter. }
  eexists _, _. split.
  - apply onstop_comma_free. by rewrite Hblob.
  - rewrite Hblob. by apply requestOf_with_audio.
Qed.

Lemma X19_recorded_audio_is_sent_witness :
  exists payload type,
    Capture.onstop Capture.plainEncoding
      (Capture.collect ["GkXf"; EmptyString; "o0AB"] []) = (Some payload, type) /\
    parts (requestOf (handleAudioComplete payload type textQuery)) =
      [TextPart (audioTextPrompt (searchText textQuery));
       InlinePart {| inlineMimeType := "audio/webm"; data := "GkXfo0AB" |}].
Proof.
  apply (X19_recorded_audio_is_sent Capture.plainEncoding
           ["GkXf"; EmptyString; "o0AB"] textQuery); reflexivity.
Defined.

(** *** More on identifier normalization *)

Lemma normalizeFrom_ids uuid n l :
  Forall (fun r => is_Some (id r)) (normalizeFrom uuid n l).
Proof.
  revert n. induction l as [|r l IH]; intros n; cbn; [constructor|].
  destruct (keepsId r) eqn:Hk; constructor; try apply IH.
  - apply keepsId_spec in Hk as (s & -> & _). by eexists.
  - by eexists.
Qed.

Lemma normalizeFrom_long uuid n l :
  (forall k, 5 < String.length (uuid k)) ->
  Forall (fun r => keepsId r = true) (normalizeFrom uuid n l).
Proof.
  intros Hlen. revert n. induction l as [|r l IH]; intros n; cbn; [constructor|].
  destruct (keepsId r) eqn:Hk; constructor; try apply IH; [done|].
  apply keepsId_spec. exists (uuid n). done.
Qed.

Lemma normalizeFrom_kept uuid n l :
  Forall (fun r => keepsId r = true) l ->
  normalizeFrom uuid n l = l /\ drawsNeeded l = 0.
Proof.
  induction 1 as [|r l Hr _ [IH1 IH2]]; [done|].
  rewrite drawsNeeded_cons. cbn. by rewrite Hr, IH1, IH2.
Qed.

Lemma normalizeIds_kept uuid l w :
  Forall (fun r => keepsId r = true) l ->
  normalizeIds uuid (Records l) w = (Returned l, w).
Proof.
  intros Hl. cbn. rewrite mapM_normalizeId.
  destruct (normalizeFrom_kept uuid (draws w) l Hl) as [-> ->].
  rewrite Nat.add_0_r. by destruct w.
Qed.

(** X15: a batch whose identifiers are all present and longer than 5 goes
    through normalization unchanged, and [crypto.randomUUID] is not
    called. *)
Theorem X15_long_ids_untouched (uuid : nat -> string) (raw : list Song)
    (w : World) :
  Forall longId raw ->
  normalizeIds uuid (Records raw) w = (Returned raw, w).
Proof.
  intros Hl. apply normalizeIds_kept.
  eapply Forall_impl; [exact Hl|]. intros r Hr. by apply keepsId_spec.
Qed.

Lemma X15_long_ids_untouched_witness :
  normalizeIds constantUUID (Records [aSong]) freshWorld =
    (Returned [aSong], freshWorld).
Proof.
  apply (X15_long_ids_untouched constantUUID [aSong] freshWorld).
  repeat constructor. exists "inception-time". split; [reflexivity|cbn; lia].
Defined.

(** X16: after normalization every record has an identifier, and
    [crypto.randomUUID] has been called once per record that did not keep
    its own; when the values it returns are longer than 5, as UUIDs are,
    every identifier of the result is longer than 5 and normalizing the
    result again changes nothing and draws nothing. *)
Theorem X16_normalization_settles (uuid : nat -> string) (raw : list Song)
    (w : World) :
  exists out w',
    normalizeIds uuid (Records raw) w = (Returned out, w') /\
    Forall (fun r => is_Some (id r)) out /\
    draws w' = draws w + drawsNeeded raw /\
    ((forall k, 5 < String.length (uuid k)) ->
       Forall longId out /\
       normalizeIds uuid (Records out) w' = (Returned out, w')).
Proof.
  eexists _, _. split; [apply mapM_normalizeId|].
  split_and!; [apply normalizeFrom_ids|done|].
  intros Hlen. pose proof (normalizeFrom_long uuid (draws w) raw Hlen) as Hk.
  split.
  - eapply Forall_impl; [exact Hk|]. intros r Hr. by apply keepsId_spec.
  - by apply normalizeIds_kept.
Qed.

Lemma sampleUUID_long k : 5 < String.length (sampleUUID k).
Proof. destruct k as [|[|k]]; cbn; lia. Qed.

Lemma X16_normalization_settles_witness :
  exists out w',
    normalizeIds sampleUUID (Records sampleBatch) freshWorld = (Returned out, w') /\
    normalizeIds sampleUUID (Records out) w' = (Returned out, w').
Proof.
  destruct (X16_normalization_settles sampleUUID sampleBatch freshWorld)
    as (out & w' & Hrun & _ & _ & Hagain).
  exists out, w'. split; [exact Hrun|]. apply Hagain, sampleUUID_long.
Defined.

(** X17: when the long identifiers sent by the service are pairwise
    different and the values drawn are fresh, all identifiers of the
    normalized batch are pairwise different. *)
Theorem X17_normalized_ids_distinct (uuid : nat -> string) (raw : list Song)
    (w : World) :
  keptDistinct raw ->
  freshOn uuid (draws w) (draws w + drawsNeeded raw) raw ->
  exists out w',
    normalizeIds uuid (Records raw) w = (Returned out, w') /\
    NoDup (id <$> out).
Proof.
  intros Hkept Hfresh. eexists _, _. split; [apply mapM_normalizeId|].
  apply NoDup_alt. intros i j x Hi Hj.
  rewrite list_lookup_fmap in Hi, Hj.
  destruct (normalizeFrom uuid (draws w) raw !! i) as [ri'|] eqn:Hi'; [|done].
  destruct (normalizeFrom uuid (draws w) raw !! j) as [rj'|] eqn:Hj'; [|done].
  cbn in Hi, Hj. injection Hi as Hi. injection Hj as Hj.
  destruct (decide (i = j)) as [|Hne]; [done|exfalso].
  destruct (normalizeFrom_lookup_inv _ _ _ _ _ Hi') as (ri & Hri & Hni).
  destruct (normalizeFrom_lookup_inv _ _ _ _ _ Hj') as (rj & Hrj & Hnj).
  destruct Hni as [[Hki Ei]|[Hki _]].
  - destruct Hnj as [[Hkj Ej]|[Hkj _]].
    + apply Hne. apply (Hkept i j ri rj); congruence.
    + apply (normalizeFrom_distinct uuid (draws w) raw Hfresh j i rj rj' ri');
        [done..|congruence].
  - apply (normalizeFrom_distinct uuid (draws w) raw Hfresh i j ri ri' rj');
      [done..|congruence].
Qed.

Lemma sampleBatch_keptDistinct : keptDistinct sampleBatch.
Proof.
  intros [|[|[|i]]] [|[|[|j]]] ri rj Hi Hj Hki Hkj Hid;
    cbn in Hi, Hj; simplify_eq; try done.
Qed.

Lemma X17_normalized_ids_distinct_witness :
  exists out w',
    normalizeIds sampleUUID (Records sampleBatch) freshWorld = (Returned out, w') /\
    NoDup (id <$> out).
Proof.
  apply (X17_normalized_ids_distinct sampleUUID sampleBatch freshWorld).
  - apply sampleBatch_keptDistinct.
  - apply sampleUUID_fresh.
Defined.

(** *** One request per call *)

(** X18: every call of [searchMusic] sends exactly one request, whatever
    the outcome (no retry), and when it throws, the message is always its
    own fixed message, never the one of the failure underneath. *)
Theorem X18_searchMusic_single_request gen parse (text : string)
    (audioBase64 mimeTypeArg : option string) (w : World) :
  (searchMusic gen parse text audioBase64 mimeTypeArg w).2 =
    logged (buildRequest text audioBase64 mimeTypeArg) w /\
  (forall e, (searchMusic gen parse text audioBase64 mimeTypeArg w).1 = Thrown e ->
     e = searchFailedMessage).
Proof.
  rewrite searchMusic_unfold. cbn.
  destruct (gen _) as [e0|[t|]]; cbn.
  - split; [done|]. by intros e [= <-].
  - destruct (truthy t); [|by split].
    destruct (parse t); split; try done. by intros e [= <-].
  - by split.
Qed.

Lemma X18_searchMusic_single_request_witness :
  (searchMusic rejectingRemote parseNothing "hum" None None freshWorld).1 =
    Thrown searchFailedMessage.
Proof.
  destruct (X18_searchMusic_single_request rejectingRemote parseNothing
              "hum" None None freshWorld) as [_ Hmsg].
  destruct (searchMusic rejectingRemote parseNothing "hum" None None freshWorld).1
    as [v|e] eqn:Hout.
  - vm_compute in Hout. discriminate.
  - by rewrite (Hmsg e eq_refl).
Defined.

End AppFacts.
